(** * shortsmaker: the YouTube-to-shorts service of [main.py]

    A shallow embedding of [main.py]: the identifier extractor
    ([get_video_id]), the transcript fetcher ([download_transcript]), the
    script generator ([generate_shorts_script]) and the request handler
    ([generate_shorts]), with the pieces of the Python runtime they rest on
    ([str] methods, the fragment of [re] the three patterns use, exceptions),
    followed by the properties of the service.

    Python text ([str]) is a sequence of Unicode code points: a [list N]. *)

From Stdlib Require Import String Ascii.
From Stdlib Require Import List NArith ZArith Bool Arith Lia Floats.
Import ListNotations.

Set Implicit Arguments.
Set Warnings "-register-all,-inexact-float".

(* ===================================================================== *)
(** * Python text *)
(* ===================================================================== *)

Definition char := N.
Definition str := list char.

Module PyStr.

(** Decoding of the UTF-8 bytes of a literal of this file into code points
    (the literals are well-formed; a truncated sequence is kept as it is). *)
Fixpoint utf8_decode (bs : list N) : str :=
  match bs with
  | [] => []
  | b0 :: t0 =>
    if (b0 <? 128)%N then b0 :: utf8_decode t0 else
    match t0 with
    | [] => [b0]
    | b1 :: t1 =>
      if (b0 <? 224)%N then ((b0 - 192) * 64 + (b1 - 128))%N :: utf8_decode t1 else
      match t1 with
      | [] => [b0; b1]
      | b2 :: t2 =>
        if (b0 <? 240)%N
        then ((b0 - 224) * 4096 + (b1 - 128) * 64 + (b2 - 128))%N :: utf8_decode t2
        else
        match t2 with
        | [] => [b0; b1; b2]
        | b3 :: t3 =>
          ((b0 - 240) * 262144 + (b1 - 128) * 4096 + (b2 - 128) * 64 + (b3 - 128))%N
            :: utf8_decode t3
        end
      end
    end
  end.

(** A literal of the source, as Python text. *)
Definition lit (s : string) : str :=
  utf8_decode (map N_of_ascii (list_ascii_of_string s)).

Definition NL : char := 10%N.

(** [c.isspace()] for a single character: the code points Python's
    [str.strip()] removes. *)
Definition isspace (c : char) : bool :=
  ((9 <=? c) && (c <=? 13) || (28 <=? c) && (c <=? 32)
   || (c =? 133) || (c =? 160) || (c =? 5760)
   || (8192 <=? c) && (c <=? 8202)
   || (c =? 8232) || (c =? 8233) || (c =? 8239) || (c =? 8287) || (c =? 12288))%N.

Fixpoint lstrip (s : str) : str :=
  match s with
  | c :: s' => if isspace c then lstrip s' else s
  | [] => []
  end.

Definition rstrip (s : str) : str := rev (lstrip (rev s)).

(** [s.strip()] *)
Definition strip (s : str) : str := rstrip (lstrip s).

(** [s.startswith(p)] *)
Fixpoint startswith (p s : str) : bool :=
  match p, s with
  | [], _ => true
  | a :: p', b :: s' => (a =? b)%N && startswith p' s'
  | _ :: _, [] => false
  end.

(** [s.split(sep)] for a non-empty [sep]: the pieces between the
    non-overlapping occurrences of [sep], found from the left.  [skip] counts
    the characters of an occurrence still to be passed over, [cur] holds the
    current piece, reversed. *)
Fixpoint split_go (sep : str) (skip : nat) (cur : str) (s : str) : list str :=
  match s with
  | [] => [rev cur]
  | c :: s' =>
    match skip with
    | S k => split_go sep k cur s'
    | O =>
      if startswith sep s
      then rev cur :: split_go sep (length sep - 1) [] s'
      else split_go sep 0 (c :: cur) s'
    end
  end.

Definition split (sep s : str) : list str := split_go sep 0 [] s.

(** [sep.join(xs)] *)
Fixpoint join (sep : str) (xs : list str) : str :=
  match xs with
  | [] => []
  | [x] => x
  | x :: rest => x ++ sep ++ join sep rest
  end.

(** Truthiness of a string: [not s] holds of the empty string. *)
Definition falsy (s : str) : bool :=
  match s with [] => true | _ => false end.

End PyStr.
Import PyStr.

(* ===================================================================== *)
(** * The fragment of [re] the patterns use *)
(* ===================================================================== *)

Module Re.

(** Patterns: literal characters, [.], bracketed classes given by their
    ranges, sequence, alternation, the greedy star, bounded repetition
    [{n}], the capturing group (the patterns have one), [^] and [$]. *)
Inductive regex : Type :=
| Eps
| Chr (c : char)
| Dot
| Class (ranges : list (N * N))
| Cat (r1 r2 : regex)
| Alt (r1 r2 : regex)
| Star (r : regex)
| Rep (n : nat) (r : regex)
| Group (r : regex)
| Bol
| Eol.

(** A literal string, as the sequence of its characters. *)
Fixpoint Lit (s : str) : regex :=
  match s with
  | [] => Eps
  | c :: s' => Cat (Chr c) (Lit s')
  end.

(** The match object: where the match ends and what group 1 holds (None
    when the group took no part in the match). *)
Record Match : Type := mkMatch { m_end : nat; group1 : option str }.

Definition in_class (ranges : list (N * N)) (c : char) : bool :=
  existsb (fun r => (fst r <=? c) && (c <=? snd r))%N ranges.

(** The matcher is the backtracking one of [re], in continuation-passing
    style: [i] is the index of the next character, [s] the text from there,
    [g] what group 1 holds so far, and [k] what remains to be matched; the
    first alternative that lets [k] succeed wins, and a greedy star tries
    one more iteration before it tries to stop. *)
Definition cont := nat -> str -> option str -> option Match.

(** One more iteration of a greedy star whose body is matched by [body], at
    most [fuel] times (an iteration consumes a character, so the length of the
    text is fuel enough), then the rest [k]. *)
Fixpoint star_loop (body : nat -> str -> option str -> cont -> option Match)
  (k : cont) (fuel : nat) (i : nat) (s : str) (g : option str) : option Match :=
  match fuel with
  | O => k i s g
  | S fuel' =>
    match body i s g
            (fun i' s' g' => if i <? i' then star_loop body k fuel' i' s' g' else None) with
    | Some m => Some m
    | None => k i s g
    end
  end.

(** Exactly [n] iterations of [body], then [k]. *)
Fixpoint rep_loop (body : nat -> str -> option str -> cont -> option Match)
  (k : cont) (n : nat) (i : nat) (s : str) (g : option str) : option Match :=
  match n with
  | O => k i s g
  | S n' => body i s g (fun i' s' g' => rep_loop body k n' i' s' g')
  end.

Fixpoint re_match (r : regex) (i : nat) (s : str) (g : option str) (k : cont)
  {struct r} : option Match :=
  match r with
  | Eps => k i s g
  | Chr c =>
    match s with
    | x :: s' => if (x =? c)%N then k (S i) s' g else None
    | [] => None
    end
  | Dot =>
    match s with
    | x :: s' => if (x =? NL)%N then None else k (S i) s' g
    | [] => None
    end
  | Class ranges =>
    match s with
    | x :: s' => if in_class ranges x then k (S i) s' g else None
    | [] => None
    end
  | Cat r1 r2 => re_match r1 i s g (fun i' s' g' => re_match r2 i' s' g' k)
  | Alt r1 r2 =>
    match re_match r1 i s g k with
    | Some m => Some m
    | None => re_match r2 i s g k
    end
  | Star r0 => star_loop (re_match r0) k (length s) i s g
  | Rep n r0 => rep_loop (re_match r0) k n i s g
  | Group r0 =>
    re_match r0 i s g (fun i' s' _ => k i' s' (Some (firstn (i' - i) s)))
  | Bol => if i =? 0 then k i s g else None
  | Eol =>
    match s with
    | [] => k i s g
    | [x] => if (x =? NL)%N then k i s g else None
    | _ => None
    end
  end.

Definition accept : cont := fun i _ g => Some (mkMatch i g).

(** [re.match]-like attempt at one position. *)
Definition match_at (r : regex) (i : nat) (s : str) : option Match :=
  re_match r i s None accept.

(** [re.search(r, text)]: the match at the leftmost position that has one
    (the position past the last character included). *)
Fixpoint search_from (r : regex) (i : nat) (s : str) : option Match :=
  match match_at r i s with
  | Some m => Some m
  | None =>
    match s with
    | [] => None
    | _ :: s' => search_from r (S i) s'
    end
  end.

Definition search (r : regex) (text : str) : option Match := search_from r 0 text.

End Re.
Import Re.

(* ===================================================================== *)
(** * [get_video_id] *)
(* ===================================================================== *)

(** [[0-9A-Za-z_-]] *)
Definition id_class : regex :=
  Class [(48, 57); (65, 90); (97, 122); (95, 95); (45, 45)]%N.

(** [(?:v=|\/)([0-9A-Za-z_-]{11}).*] *)
Definition pattern1 : regex :=
  Cat (Alt (Lit (lit "v=")) (Lit (lit "/")))
      (Cat (Group (Rep 11 id_class)) (Star Dot)).

(** [(?:embed\/)([0-9A-Za-z_-]{11})] *)
Definition pattern2 : regex :=
  Cat (Lit (lit "embed/")) (Group (Rep 11 id_class)).

(** [^([0-9A-Za-z_-]{11})$] *)
Definition pattern3 : regex :=
  Cat Bol (Cat (Group (Rep 11 id_class)) Eol).

Definition patterns : list regex := [pattern1; pattern2; pattern3].

(** The loop of [get_video_id]: the first pattern that is found anywhere in
    [url] returns its group 1; [None] when no pattern is found. *)
Fixpoint first_group (ps : list regex) (url : str) : option str :=
  match ps with
  | [] => None
  | pattern :: rest =>
    match search pattern url with
    | Some m => group1 m
    | None => first_group rest url
    end
  end.

Definition get_video_id (url : str) : option str := first_group patterns url.

(* ===================================================================== *)
(** * Exceptions, values and the outside world *)
(* ===================================================================== *)

(** The exception classes the program meets.  [LibraryError] stands for a
    class an external library defines (the transcript provider's errors, the
    model provider's errors, pydantic's validation error): a subclass of
    [Exception] that is no [JSONDecodeError]. *)
Inductive exn_class : Type :=
| ValueError
| KeyError
| TypeError
| IndexError
| UnboundLocalError
| JSONDecodeError
| Exception
| LibraryError (name : str).

(** An exception: its class and [str(e)]. *)
Record exn : Type := mkExn { exn_class_of : exn_class; exn_str : str }.

(** [isinstance(e, json.JSONDecodeError)] *)
Definition is_json_decode_error (e : exn) : bool :=
  match exn_class_of e with JSONDecodeError => true | _ => false end.

(** What [json.loads] returns. *)
Inductive pyvalue : Type :=
| PyNone
| PyBool (b : bool)
| PyInt (z : Z)
| PyFloat (f : float)
| PyStr (s : str)
| PyList (l : list pyvalue)
| PyDict (items : list (str * pyvalue)).

Fixpoint str_eqb (a b : str) : bool :=
  match a, b with
  | [], [] => true
  | x :: a', y :: b' => (x =? y)%N && str_eqb a' b'
  | _, _ => false
  end.

Fixpoint dict_get (items : list (str * pyvalue)) (key : str) : option pyvalue :=
  match items with
  | [] => None
  | (k, v) :: rest => if str_eqb k key then Some v else dict_get rest key
  end.

(** [repr(key)] of a key made of letters and underscores (the four keys the
    handler reads): the key between single quotes. *)
Definition repr_key (key : str) : str := lit "'" ++ key ++ lit "'".

(** [v[key]] with a [str] key; the [TypeError] texts are CPython's (3.11 and
    later). *)
Definition getitem (v : pyvalue) (key : str) : exn + pyvalue :=
  match v with
  | PyDict items =>
    match dict_get items key with
    | Some x => inr x
    | None => inl (mkExn KeyError (repr_key key))
    end
  | PyList _ => inl (mkExn TypeError (lit "list indices must be integers or slices, not str"))
  | PyStr _ => inl (mkExn TypeError (lit "string indices must be integers, not 'str'"))
  | PyNone => inl (mkExn TypeError (lit "'NoneType' object is not subscriptable"))
  | PyBool _ => inl (mkExn TypeError (lit "'bool' object is not subscriptable"))
  | PyInt _ => inl (mkExn TypeError (lit "'int' object is not subscriptable"))
  | PyFloat _ => inl (mkExn TypeError (lit "'float' object is not subscriptable"))
  end.

(** The request and response models. *)
Record VideoRequest : Type :=
  mkVideoRequest { video_url : str; api_key : str; style : str }.

Definition default_style : str := Eval vm_compute in lit "감성적".

Record ShortsScriptResponse : Type :=
  mkShortsScriptResponse
    { title : str; subtitles : str; narration : str; visual_suggestions : str }.

(** One segment of a transcript, as [to_raw_data()] gives it. *)
Record Snippet : Type := mkSnippet { text : str; start : float; duration : float }.

(** The outbound calls, as they are logged. *)
Inductive call : Type :=
| Fetch (video_id : str) (languages : option (list str))
| Invoke (model : str) (openai_api_key : str) (temperature : float) (prompt : str).

Definition is_fetch (c : call) : bool :=
  match c with Fetch _ _ => true | Invoke _ _ _ _ => false end.

Definition is_invoke (c : call) : bool :=
  match c with Invoke _ _ _ _ => true | Fetch _ _ => false end.

(** The external collaborators.  The two providers answer a call given the
    calls made so far (they may change their mind between calls); the two
    libraries are functions.
    - [yt_fetch]: [YouTubeTranscriptApi().fetch(video_id, languages=...)]
      followed by [to_raw_data()];
    - [llm_invoke]: [ChatOpenAI(...).invoke(prompt).content];
    - [json_loads]: [json.loads], [inl msg] for a [JSONDecodeError] whose
      [str] is [msg];
    - [new_response]: pydantic's construction of a [ShortsScriptResponse]
      from the four values read off the script. *)
Record Services : Type :=
  mkServices
    { yt_fetch : list call -> str -> option (list str) -> exn + list Snippet;
      llm_invoke : list call -> str -> str -> float -> str -> exn + str;
      json_loads : str -> str + pyvalue;
      new_response : pyvalue -> pyvalue -> pyvalue -> pyvalue
                     -> exn + ShortsScriptResponse }.

(** Computations that may raise and that log their outbound calls. *)
Definition io (A : Type) : Type := list call -> (exn + A) * list call.

Definition ret {A} (a : A) : io A := fun log => (inr a, log).

Definition raise {A} (e : exn) : io A := fun log => (inl e, log).

Definition bind {A B} (m : io A) (f : A -> io B) : io B :=
  fun log =>
    match m log with
    | (inr a, log') => f a log'
    | (inl e, log') => (inl e, log')
    end.

(** [try: m except: h] *)
Definition try_except {A} (m : io A) (h : exn -> io A) : io A :=
  fun log =>
    match m log with
    | (inr a, log') => (inr a, log')
    | (inl e, log') => h e log'
    end.

Definition lift {A} (r : exn + A) : io A := fun log => (r, log).

Declare Scope io_scope.
Delimit Scope io_scope with io.
Notation "x <- m ;; k" := (bind m (fun x => k))
  (at level 61, m at next level, right associativity) : io_scope.

(* ===================================================================== *)
(** * The program *)
(* ===================================================================== *)

Section Program.

Variable S : Services.

Local Open Scope io_scope.

(** [ytt_api.fetch(video_id, languages=...)] and [to_raw_data()]; building
    [YouTubeTranscriptApi()] (line 57) calls nobody. *)
Definition api_fetch (video_id : str) (languages : option (list str)) : io (list Snippet) :=
  fun log => (yt_fetch S log video_id languages, log ++ [Fetch video_id languages]).

Definition msg_invalid_url : str := Eval vm_compute in lit "유효하지 않은 YouTube URL입니다.".
Definition msg_download_failed : str := Eval vm_compute in lit "자막 다운로드 실패: ".

(** The body of the [try] of [download_transcript]. *)
Definition download_transcript_body (video_url language : str) : io str :=
  match get_video_id video_url with
  | None => raise (mkExn ValueError msg_invalid_url)
  | Some video_id =>
    if falsy video_id then raise (mkExn ValueError msg_invalid_url) else
    fetched_transcript <-
      try_except (api_fetch video_id (Some [language]))
        (fun _ =>
           try_except (api_fetch video_id (Some [lit "en"]))
             (fun _ => api_fetch video_id None)) ;;
    ret (join [NL] (map text fetched_transcript))
  end.

Definition download_transcript (video_url language : str) : io str :=
  try_except (download_transcript_body video_url language)
    (fun e => raise (mkExn Exception (msg_download_failed ++ exn_str e))).

Definition dq : str := [34%N].
Definition quoted (s : str) : str := dq ++ s ++ dq.

(** The f-string of [generate_shorts_script], line by line. *)
Definition prompt_of (transcript_text style : str) : str :=
  join [NL]
    [ lit "You are an expert scriptwriter for short-form video content. Your task is to create a YouTube Shorts script based on the provided YouTube video transcript. The script must include a catchy title, engaging subtitles, narration, and visual suggestions, tailored to a specific style.";
      [];
      lit "**Input:**";
      lit "- Transcript: " ++ transcript_text;
      lit "- Desired Style: " ++ style;
      lit "- Duration: 1 minute";
      [];
      lit "**Instructions:**";
      [];
      lit "1. **Summary Requirements:**";
      lit "   - Extract only the core message and key information from the transcript.";
      lit "   - Maintain logical flow and coherence.";
      lit "   - Avoid omitting critical information.";
      [];
      lit "2. **Style Requirements:**";
      lit "   - Adapt the tone and language to match the specified style (" ++ style ++ lit ").";
      lit "   - For example:";
      lit "     - Emotional: Use heartfelt, inspiring language to evoke deep feelings.";
      lit "     - Funny: Incorporate humor, light-hearted phrasing, or witty remarks.";
      lit "     - Immersive: Create vivid, sensory-driven descriptions to captivate the audience.";
      lit "     - Documentary : Use factual, authoritative, and narrative-driven language.";
      [];
      lit "3. **Output Format:**";
      lit "   - **Title**: A short, attention-grabbing title (5-10 words) that hooks the audience.";
      lit "   - **Subtitles**: Concise, engaging text for on-screen display";
      lit "   - **Narration**: A script for voice-over that matches the style and complements the subtitles";
      lit "   - **Visual Suggestions**: Brief descriptions of visuals or effects to enhance the narrative";
      [];
      lit "4. **Language**: Write the title, subtitles, and narration in Korean. Visual suggestions can be in English for clarity.";
      [];
      lit "**Output:**";
      lit "Provide the response in JSON format with the structure:";
      lit "```json";
      lit "{";
      lit "  " ++ quoted (lit "title") ++ lit ": " ++ quoted (lit "한국어로 된 후킹 제목") ++ lit ",";
      lit "  " ++ quoted (lit "subtitles") ++ lit ": " ++ quoted (lit "간결하고 매력적인 자막 텍스트") ++ lit ",";
      lit "  " ++ quoted (lit "narration") ++ lit ": " ++ quoted (lit "내레이션 스크립트") ++ lit ",";
      lit "  " ++ quoted (lit "visual_suggestions") ++ lit ": " ++ quoted (lit "Visual descriptions");
      lit "}";
      lit "```";
      [];
      lit "Important: Respond ONLY with valid JSON. Do not include any text before or after the JSON." ].

Definition FENCE : str := Eval vm_compute in lit "```".

(** [model.invoke(prompt)] on [ChatOpenAI(model="gpt-4o-mini",
    openai_api_key=api_key, temperature=0.3)], and [.content]; the call is
    logged with the settings the client was built with. *)
Definition model_invoke (api_key prompt : str) : io str :=
  fun log =>
    (llm_invoke S log (lit "gpt-4o-mini") api_key 0.3%float prompt,
     log ++ [Invoke (lit "gpt-4o-mini") api_key 0.3%float prompt]).

(** Lines 126-133: what is handed to [json.loads], from the reply's text.
    [split] gives at least two pieces when the text starts with the fence;
    indexing a shorter list would raise [IndexError]. *)
Definition extract_json (response_content : str) : exn + str :=
  let content := strip response_content in
  if startswith FENCE content then
    match nth_error (split FENCE content) 1 with
    | None => inl (mkExn IndexError (lit "list index out of range"))
    | Some content =>
      let content := if startswith (lit "json") content then skipn 4 content else content in
      inr (strip content)
    end
  else inr content.

Definition msg_key_required : str := Eval vm_compute in lit "OpenAI API 키가 필요합니다.".
Definition msg_json_failed : str := Eval vm_compute in lit "JSON 파싱 실패: ".
Definition msg_response_content : str := Eval vm_compute in NL :: lit "응답 내용: ".
Definition msg_script_failed : str := Eval vm_compute in lit "스크립트 생성 실패: ".
(** [str] of the [UnboundLocalError] for [content] (CPython 3.11 and later). *)
Definition msg_unbound_content : str :=
  Eval vm_compute in lit "cannot access local variable 'content' where it is not associated with a value".

(** The second handler: [except Exception as e]. *)
Definition script_failed (e : exn) : exn :=
  mkExn Exception (msg_script_failed ++ exn_str e).

(** [generate_shorts_script].  The first handler, [except
    json.JSONDecodeError], reads the local [content]: it is unbound until the
    reply has arrived, and an exception raised inside a handler leaves the
    function as it is. *)
Definition generate_shorts_script (transcript_text api_key style : str) : io pyvalue :=
  fun log =>
    match
      (if falsy api_key then raise (mkExn ValueError msg_key_required)
       else model_invoke api_key (prompt_of transcript_text style)) log
    with
    | (inl e, log') =>
      if is_json_decode_error e
      then (inl (mkExn UnboundLocalError msg_unbound_content), log')
      else (inl (script_failed e), log')
    | (inr response_content, log') =>
      match extract_json response_content with
      | inl e => (inl (script_failed e), log')
      | inr content =>
        match json_loads S content with
        | inl msg =>
          (inl (mkExn Exception
                  (msg_json_failed ++ msg ++ msg_response_content ++ content)), log')
        | inr result => (inr result, log')
        end
      end
    end.

(** [HTTPException(status_code, detail)] *)
Record HTTPException : Type := mkHTTPException { status_code : Z; detail : str }.

(** The body of the [try] of [generate_shorts]. *)
Definition generate_shorts_body (request : VideoRequest) : io ShortsScriptResponse :=
  transcript_text <- download_transcript (video_url request) (lit "ko") ;;
  script <- generate_shorts_script transcript_text (api_key request) (style request) ;;
  v_title <- lift (getitem script (lit "title")) ;;
  v_subtitles <- lift (getitem script (lit "subtitles")) ;;
  v_narration <- lift (getitem script (lit "narration")) ;;
  v_visual <- lift (getitem script (lit "visual_suggestions")) ;;
  lift (new_response S v_title v_subtitles v_narration v_visual).

(** [generate_shorts]: the handler of [POST /summarize]; [inl] is the
    [HTTPException] it raises, [inr] the response model it returns. *)
Definition generate_shorts (request : VideoRequest)
  : list call -> (HTTPException + ShortsScriptResponse) * list call :=
  fun log =>
    match generate_shorts_body request log with
    | (inr r, log') => (inr r, log')
    | (inl e, log') => (inl (mkHTTPException 500 (exn_str e)), log')
    end.

(** The JSON body of a request, field by field ([None]: the field is
    absent), and what FastAPI makes of it before the handler runs:
    [VideoRequest] (lines 25-28) requires [video_url] and [api_key], [style]
    has a default, and a body that lacks a required field is answered by the
    framework (422) without the handler being called. *)
Record Body : Type :=
  mkBody { body_video_url : option str; body_api_key : option str; body_style : option str }.

Definition parse_body (b : Body) : option VideoRequest :=
  match body_video_url b, body_api_key b with
  | Some u, Some k =>
    Some (mkVideoRequest u k (match body_style b with Some s => s | None => default_style end))
  | _, _ => None
  end.

Inductive http_response : Type :=
| Http200 (body : ShortsScriptResponse)
| HttpError (status : Z) (detail : str)
| HttpUnprocessable.

Definition post_summarize (b : Body) : list call -> http_response * list call :=
  fun log =>
    match parse_body b with
    | None => (HttpUnprocessable, log)
    | Some request =>
      match generate_shorts request log with
      | (inr r, log') => (Http200 r, log')
      | (inl h, log') => (HttpError (status_code h) (detail h), log')
      end
    end.

End Program.

(* ===================================================================== *)
(** * Reading the three patterns *)
(* ===================================================================== *)

(** What the patterns look for, as plain functions on the text: these are
    what the matcher is proved to compute on the three patterns. *)

Definition is_id_char (c : char) : bool :=
  in_class [(48, 57); (65, 90); (97, 122); (95, 95); (45, 45)]%N c.

(** The 11 characters at the head of [s], when they are identifier
    characters. *)
Definition token_at (s : str) : option str :=
  if (11 <=? length s) && forallb is_id_char (firstn 11 s)
  then Some (firstn 11 s) else None.

(** [sep] at the head of [s], followed by a token. *)
Definition after (sep s : str) : option str :=
  if startswith sep s then token_at (skipn (length sep) s) else None.

(** Pattern 1, 2 and 3 at the head of [s] (pattern 3 at index 0). *)
Definition hit1 (s : str) : option str :=
  match after (lit "v=") s with
  | Some t => Some t
  | None => after (lit "/") s
  end.

Definition hit2 (s : str) : option str := after (lit "embed/") s.

Definition hit3 (s : str) : option str :=
  match token_at s with
  | Some t =>
    match skipn 11 s with
    | [] => Some t
    | [x] => if (x =? NL)%N then Some t else None
    | _ => None
    end
  | None => None
  end.

(** The leftmost suffix of [s] where [hit] succeeds. *)
Fixpoint scan (hit : str -> option str) (s : str) : option str :=
  match hit s with
  | Some t => Some t
  | None =>
    match s with
    | [] => None
    | _ :: s' => scan hit s'
    end
  end.

(** An 11-character token of the identifier alphabet. *)
Definition token (t : str) : Prop :=
  length t = 11 /\ forallb is_id_char t = true.

(** [get_video_id] without its second pattern. *)
Definition get_video_id_without_embed (url : str) : option str :=
  first_group [pattern1; pattern3] url.

(* ===================================================================== *)
(** * Names for what the properties speak of *)
(* ===================================================================== *)

(** Group 1 followed by [.*]: the tail of pattern 1. *)
Definition tail1 : regex := Cat (Group (Rep 11 id_class)) (Star Dot).

(** [get_video_id], read off the text. *)
Definition video_id_of (url : str) : option str :=
  match scan hit1 url with
  | Some t => Some t
  | None =>
    match scan hit2 url with
    | Some t => Some t
    | None => hit3 url
    end
  end.

(** What it means for a pattern to reach a token [t] in [url]: pattern 1
    finds [v=] or [/] followed by [t] somewhere, pattern 2 finds [embed/]
    followed by [t] somewhere, pattern 3 finds [url] to be [t] itself ([$]
    also matches before a final newline). *)
Definition reach1 (url t : str) : Prop :=
  exists pre post,
    url = pre ++ lit "v=" ++ t ++ post \/ url = pre ++ lit "/" ++ t ++ post.

Definition reach2 (url t : str) : Prop :=
  exists pre post, url = pre ++ lit "embed/" ++ t ++ post.

Definition reach3 (url t : str) : Prop := url = t \/ url = t ++ [NL].

Definition reachable (url t : str) : Prop :=
  token t /\ (reach1 url t \/ reach2 url t \/ reach3 url t).

(** The three attempts of [download_transcript], in order. *)
Definition attempt1 (video_id language : str) : call := Fetch video_id (Some [language]).
Definition attempt2 (video_id : str) : call := Fetch video_id (Some [lit "en"]).
Definition attempt3 (video_id : str) : call := Fetch video_id None.

(** The flat text of a transcript. *)
Definition flat_text (segments : list Snippet) : str := join [NL] (map text segments).

Definition download_failed (e : exn) : exn :=
  mkExn Exception (msg_download_failed ++ exn_str e).

(** The four fields the handler reads off the script, in the order it reads
    them. *)
Definition required_fields : list str :=
  [lit "title"; lit "subtitles"; lit "narration"; lit "visual_suggestions"].

Definition has_field (script : pyvalue) (key : str) : bool :=
  match getitem script key with inr _ => true | inl _ => false end.

(** The call [generate_shorts_script] makes to the model. *)
Definition llm_call (transcript_text api_key style : str) : call :=
  Invoke (lit "gpt-4o-mini") api_key 0.3%float (prompt_of transcript_text style).

Definition json_failed (msg content : str) : exn :=
  mkExn Exception (msg_json_failed ++ msg ++ msg_response_content ++ content).

Definition http500 (e : exn) : HTTPException := mkHTTPException 500 (exn_str e).

(** Lines 174-179: the four subscripts, then the response model. *)
Definition response_of (S : Services) (script : pyvalue)
  : exn + ShortsScriptResponse :=
  match getitem script (lit "title") with
  | inl e => inl e
  | inr v_title =>
    match getitem script (lit "subtitles") with
    | inl e => inl e
    | inr v_subtitles =>
      match getitem script (lit "narration") with
      | inl e => inl e
      | inr v_narration =>
        match getitem script (lit "visual_suggestions") with
        | inl e => inl e
        | inr v_visual => new_response S v_title v_subtitles v_narration v_visual
        end
      end
    end
  end.

(** [sep in s] *)
Fixpoint contains (sep s : str) : bool :=
  match s with
  | [] => startswith sep []
  | _ :: s' => startswith sep s || contains sep s'
  end.

(** No occurrence of the fence starts inside [body] when [rest] follows. *)
Fixpoint no_fence_start (body rest : str) : bool :=
  match body with
  | [] => true
  | _ :: body' => negb (startswith FENCE (body ++ rest)) && no_fence_start body' rest
  end.

(** A reply wrapped in a fenced block: the fence, an optional tag, a line
    break, the text, a line break, the fence. *)
Definition fenced (tag text : str) : str := FENCE ++ tag ++ NL :: text ++ NL :: FENCE.

(* ===================================================================== *)
(** * Stand-ins for the collaborators *)
(* ===================================================================== *)

Module Stub.

Definition snippet (s : string) (t : float) : Snippet := mkSnippet (lit s) t 2%float.

Definition no_track : exn :=
  mkExn (LibraryError (lit "NoTranscriptFound")) (lit "no transcript found").

Definition lines : list Snippet :=
  [snippet "hello" 0%float; snippet "world" 2%float; snippet "hello" 4%float].

(** A provider that has an English track only. *)
Definition fetch_english (_ : list call) (_ : str) (languages : option (list str))
  : exn + list Snippet :=
  match languages with
  | Some [l] => if str_eqb l (lit "en") then inr lines else inl no_track
  | _ => inl no_track
  end.

(** A provider that has every track, and one that has none. *)
Definition fetch_any (_ : list call) (_ : str) (_ : option (list str))
  : exn + list Snippet := inr lines.

Definition fetch_none (_ : list call) (_ : str) (_ : option (list str))
  : exn + list Snippet := inl no_track.

(** A model that answers [reply], a parser that reads it as [parsed]. *)
Definition reply_with (reply : str) (_ : list call) (_ _ : str) (_ : float) (_ : str)
  : exn + str := inr reply.

Definition parse_as (parsed : pyvalue) (_ : str) : str + pyvalue := inr parsed.

(** A response model that accepts strings only. *)
Definition strings_only (a b c d : pyvalue) : exn + ShortsScriptResponse :=
  match a, b, c, d with
  | PyStr a, PyStr b, PyStr c, PyStr d => inr (mkShortsScriptResponse a b c d)
  | _, _, _, _ =>
    inl (mkExn (LibraryError (lit "ValidationError")) (lit "Input should be a valid string"))
  end.

Definition no_narration : pyvalue :=
  PyDict [ (lit "title", PyStr (lit "T"));
           (lit "subtitles", PyStr (lit "S"));
           (lit "visual_suggestions", PyStr (lit "V")) ].

Definition english_only : Services :=
  mkServices fetch_english (reply_with (lit "{}")) (parse_as no_narration) strings_only.

Definition all_tracks : Services :=
  mkServices fetch_any (reply_with (lit "{}")) (parse_as no_narration) strings_only.

Definition no_tracks : Services :=
  mkServices fetch_none (reply_with (lit "{}")) (parse_as no_narration) strings_only.

Definition short_url : str := lit "https://youtu.be/abc12345678".
Definition short_id : str := lit "abc12345678".

(** A full script with a key more than the handler reads, and a stand-in
    whose parser returns it. *)
Definition full_script : pyvalue :=
  PyDict [ (lit "hashtags", PyList [PyStr (lit "#a")]);
           (lit "narration", PyStr (lit "N"));
           (lit "title", PyStr (lit "T"));
           (lit "visual_suggestions", PyStr (lit "V"));
           (lit "subtitles", PyStr (lit "S")) ].

Definition complete : Services :=
  mkServices fetch_any (reply_with (lit "{}")) (parse_as full_script) strings_only.

(** A provider whose tracks are empty. *)
Definition fetch_empty (_ : list call) (_ : str) (_ : option (list str))
  : exn + list Snippet := inr [].

Definition silent : Services :=
  mkServices fetch_empty (reply_with (lit "{}")) (parse_as full_script) strings_only.

(** A parser that reads every reply as a list. *)
Definition listed : Services :=
  mkServices fetch_any (reply_with (lit "[]")) (parse_as (PyList [])) strings_only.

(** A model client that fails to decode the provider's answer. *)
Definition undecodable : exn :=
  mkExn JSONDecodeError (lit "Expecting value: line 1 column 1 (char 0)").

Definition fail_with (e : exn) (_ : list call) (_ _ : str) (_ : float) (_ : str)
  : exn + str := inl e.

Definition garbled : Services :=
  mkServices fetch_any (fail_with undecodable) (parse_as full_script) strings_only.

End Stub.

(** The exception a run ends with, if any. *)
Definition raised {A : Type} (r : (exn + A) * list call) : option exn :=
  match fst r with inl e => Some e | inr _ => None end.

(** A JSON text that holds a run of three backticks inside a string, and
    what is left of it when it is cut at that run. *)
Definition json_with_backticks : str :=
  lit "{" ++ quoted (lit "title") ++ lit ": " ++ quoted (lit "T") ++ lit ", "
  ++ quoted (lit "subtitles") ++ lit ": " ++ quoted (lit "S") ++ lit ", "
  ++ quoted (lit "narration") ++ lit ": " ++ quoted (lit "N") ++ lit ", "
  ++ quoted (lit "visual_suggestions") ++ lit ": "
  ++ quoted (lit "show ```code``` on screen") ++ lit "}".

Definition json_cut_short : str :=
  lit "{" ++ quoted (lit "title") ++ lit ": " ++ quoted (lit "T") ++ lit ", "
  ++ quoted (lit "subtitles") ++ lit ": " ++ quoted (lit "S") ++ lit ", "
  ++ quoted (lit "narration") ++ lit ": " ++ quoted (lit "N") ++ lit ", "
  ++ quoted (lit "visual_suggestions") ++ lit ": " ++ dq ++ lit "show".


(* ===================================================================== *)
(** * The matcher on the three patterns *)
(* ===================================================================== *)

Section Matcher.

Lemma startswith_app (p s : str) : startswith p (p ++ s) = true.
Proof.
  induction p as [|c p IH]; simpl; [reflexivity|].
  now rewrite N.eqb_refl, IH.
Qed.

Lemma startswith_inv (p : str) : forall s,
  startswith p s = true -> s = p ++ skipn (length p) s.
Proof.
  induction p as [|c p IH]; intros s H; simpl in *; [reflexivity|].
  destruct s as [|x s]; [discriminate|].
  apply andb_true_iff in H. destruct H as [Hc Hp].
  apply N.eqb_eq in Hc. subst x. f_equal. now apply IH.
Qed.

Lemma skipn_length_app (p s : str) : skipn (length p) (p ++ s) = s.
Proof. induction p; simpl; auto. Qed.

Lemma re_match_Lit (l : str) (k : cont) : forall i s g,
  re_match (Lit l) i s g k
  = if startswith l s then k (i + length l) (skipn (length l) s) g else None.
Proof.
  induction l as [|c l IH]; intros i s g; simpl.
  - now rewrite Nat.add_0_r.
  - destruct s as [|x s]; [reflexivity|].
    rewrite (N.eqb_sym c x). destruct (x =? c)%N; simpl; [|reflexivity].
    rewrite IH. now rewrite Nat.add_succ_comm.
Qed.

(** The matcher's equations, one per construct. *)
Lemma re_match_Cat (r1 r2 : regex) i s g k :
  re_match (Cat r1 r2) i s g k
  = re_match r1 i s g (fun i' s' g' => re_match r2 i' s' g' k).
Proof. reflexivity. Qed.

Lemma re_match_Alt (r1 r2 : regex) i s g k :
  re_match (Alt r1 r2) i s g k
  = match re_match r1 i s g k with
    | Some m => Some m
    | None => re_match r2 i s g k
    end.
Proof. reflexivity. Qed.

Lemma re_match_Group (r0 : regex) i s g k :
  re_match (Group r0) i s g k
  = re_match r0 i s g (fun i' s' _ => k i' s' (Some (firstn (i' - i) s))).
Proof. reflexivity. Qed.

Lemma re_match_Rep (n : nat) (r0 : regex) i s g k :
  re_match (Rep n r0) i s g k = rep_loop (re_match r0) k n i s g.
Proof. reflexivity. Qed.

Lemma re_match_Bol i s g k :
  re_match Bol i s g k = if i =? 0 then k i s g else None.
Proof. reflexivity. Qed.

Lemma re_match_Eol i s g k :
  re_match Eol i s g k
  = match s with
    | [] => k i s g
    | [x] => if (x =? NL)%N then k i s g else None
    | _ => None
    end.
Proof. reflexivity. Qed.

Lemma re_match_Star (r0 : regex) i s g k :
  re_match (Star r0) i s g k = star_loop (re_match r0) k (length s) i s g.
Proof. reflexivity. Qed.

Lemma rep_loop_Class (rs : list (N * N)) (k : cont) (n : nat) : forall i s g,
  rep_loop (re_match (Class rs)) k n i s g
  = if (n <=? length s) && forallb (in_class rs) (firstn n s)
    then k (i + n) (skipn n s) g else None.
Proof.
  induction n as [|n IH]; intros i s g; simpl.
  - now rewrite Nat.add_0_r.
  - destruct s as [|x s]; [reflexivity|]. simpl.
    destruct (in_class rs x); simpl; [|now rewrite andb_false_r].
    rewrite IH. now rewrite Nat.add_succ_comm.
Qed.

Lemma star_loop_any_accept (body : nat -> str -> option str -> cont -> option Match) :
  (forall i s g k, body i s g k
     = match s with
       | [] => None
       | x :: s' => if (x =? NL)%N then None else k (Datatypes.S i) s' g
       end) ->
  forall fuel i s g,
  exists e, star_loop body accept fuel i s g = Some (mkMatch e g).
Proof.
  intros Hbody. induction fuel as [|fuel IH]; intros i s g.
  - now exists i.
  - cbn [star_loop]. rewrite Hbody.
    destruct s as [|x s]; [now exists i|].
    destruct (x =? NL)%N; [now exists i|].
    replace (i <? Datatypes.S i) with true by (symmetry; apply Nat.ltb_lt; lia).
    destruct (IH (Datatypes.S i) s g) as [e He]. rewrite He. now exists e.
Qed.

Lemma star_loop_Dot_accept (fuel : nat) (i : nat) (s : str) (g : option str) :
  exists e, star_loop (re_match Dot) accept fuel i s g = Some (mkMatch e g).
Proof. apply star_loop_any_accept. reflexivity. Qed.

(** Group 1 of the three patterns: 11 identifier characters. *)
Lemma group_token_some (k : cont) (i : nat) (s : str) (g : option str) (t : str) :
  token_at s = Some t ->
  re_match (Group (Rep 11 id_class)) i s g k = k (i + 11) (skipn 11 s) (Some t).
Proof.
  unfold token_at, is_id_char. intros H.
  rewrite re_match_Group. unfold id_class.
  rewrite re_match_Rep, rep_loop_Class.
  destruct ((11 <=? length s) && forallb _ (firstn 11 s)); [|discriminate].
  assert (firstn 11 s = t) as <- by congruence.
  now replace (i + 11 - i) with 11 by lia.
Qed.

Lemma group_token_none (k : cont) (i : nat) (s : str) (g : option str) :
  token_at s = None ->
  re_match (Group (Rep 11 id_class)) i s g k = None.
Proof.
  unfold token_at, is_id_char. intros H.
  rewrite re_match_Group. unfold id_class.
  rewrite re_match_Rep, rep_loop_Class.
  now destruct ((11 <=? length s) && forallb _ (firstn 11 s)).
Qed.

Lemma tail1_some (i : nat) (s : str) (g : option str) (t : str) :
  token_at s = Some t ->
  exists e, re_match tail1 i s g accept = Some (mkMatch e (Some t)).
Proof.
  intros H. unfold tail1. rewrite re_match_Cat.
  erewrite group_token_some by exact H.
  rewrite re_match_Star. apply star_loop_Dot_accept.
Qed.

Lemma tail1_none (i : nat) (s : str) (g : option str) :
  token_at s = None -> re_match tail1 i s g accept = None.
Proof. intros H. unfold tail1. rewrite re_match_Cat. now apply group_token_none. Qed.

Lemma sep_tail1_some (sep : str) (i : nat) (s : str) (t : str) :
  after sep s = Some t ->
  exists e, re_match (Lit sep) i s None (fun i' s' g' => re_match tail1 i' s' g' accept)
            = Some (mkMatch e (Some t)).
Proof.
  unfold after. intros H. rewrite re_match_Lit.
  destruct (startswith sep s); [|discriminate]. now apply tail1_some.
Qed.

Lemma sep_tail1_none (sep : str) (i : nat) (s : str) :
  after sep s = None ->
  re_match (Lit sep) i s None (fun i' s' g' => re_match tail1 i' s' g' accept) = None.
Proof.
  unfold after. intros H. rewrite re_match_Lit.
  destruct (startswith sep s); [|reflexivity]. now apply tail1_none.
Qed.

Lemma match_at_pattern1_some (i : nat) (s t : str) :
  hit1 s = Some t -> exists e, match_at pattern1 i s = Some (mkMatch e (Some t)).
Proof.
  unfold hit1, match_at, pattern1. intros H.
  change (re_match (Cat ?a (Cat ?b ?c)) i s None accept)
    with (match re_match (Lit (lit "v=")) i s None
                  (fun i' s' g' => re_match tail1 i' s' g' accept) with
          | Some m => Some m
          | None => re_match (Lit (lit "/")) i s None
                      (fun i' s' g' => re_match tail1 i' s' g' accept)
          end).
  destruct (after (lit "v=") s) as [t'|] eqn:E.
  - injection H as ->. destruct (@sep_tail1_some _ i _ _ E) as [e He].
    rewrite He. now exists e.
  - rewrite (@sep_tail1_none _ i _ E). now apply sep_tail1_some.
Qed.

Lemma match_at_pattern1_none (i : nat) (s : str) :
  hit1 s = None -> match_at pattern1 i s = None.
Proof.
  unfold hit1, match_at, pattern1. intros H.
  change (re_match (Cat ?a (Cat ?b ?c)) i s None accept)
    with (match re_match (Lit (lit "v=")) i s None
                  (fun i' s' g' => re_match tail1 i' s' g' accept) with
          | Some m => Some m
          | None => re_match (Lit (lit "/")) i s None
                      (fun i' s' g' => re_match tail1 i' s' g' accept)
          end).
  destruct (after (lit "v=") s) as [t'|] eqn:E; [discriminate|].
  rewrite (@sep_tail1_none _ i _ E). now apply sep_tail1_none.
Qed.

Lemma match_at_pattern2_some (i : nat) (s t : str) :
  hit2 s = Some t -> exists e, match_at pattern2 i s = Some (mkMatch e (Some t)).
Proof.
  unfold hit2, after, match_at, pattern2. intros H.
  rewrite re_match_Cat, re_match_Lit.
  destruct (startswith (lit "embed/") s); [|discriminate].
  erewrite group_token_some by exact H. unfold accept. eauto.
Qed.

Lemma match_at_pattern2_none (i : nat) (s : str) :
  hit2 s = None -> match_at pattern2 i s = None.
Proof.
  unfold hit2, after, match_at, pattern2. intros H.
  rewrite re_match_Cat, re_match_Lit.
  destruct (startswith (lit "embed/") s); [|reflexivity].
  now apply group_token_none.
Qed.

Lemma match_at_pattern3_start (s : str) :
  match_at pattern3 0 s
  = match hit3 s with
    | Some t => Some (mkMatch 11 (Some t))
    | None => None
    end.
Proof.
  unfold hit3, match_at, pattern3.
  rewrite re_match_Cat, re_match_Bol. cbn [Nat.eqb]. rewrite re_match_Cat.
  destruct (token_at s) as [t|] eqn:E.
  - erewrite group_token_some by exact E. rewrite re_match_Eol. cbn [Nat.add].
    destruct (skipn 11 s) as [|x [|y r]]; try reflexivity.
    now destruct (x =? NL)%N.
  - now apply group_token_none.
Qed.

Lemma match_at_pattern3_later (i : nat) (s : str) :
  match_at pattern3 (Datatypes.S i) s = None.
Proof. reflexivity. Qed.

(** [search] on a pattern whose attempts do not depend on the index. *)
Lemma search_from_scan (r : regex) (hit : str -> option str) :
  (forall i s t, hit s = Some t -> exists e, match_at r i s = Some (mkMatch e (Some t))) ->
  (forall i s, hit s = None -> match_at r i s = None) ->
  forall s i,
    match scan hit s with
    | Some t => exists e, search_from r i s = Some (mkMatch e (Some t))
    | None => search_from r i s = None
    end.
Proof.
  intros Hs Hn. induction s as [|c s IH]; intros i; simpl.
  - destruct (hit []) as [t|] eqn:E.
    + destruct (Hs i _ _ E) as [e He]. rewrite He. eauto.
    + now rewrite (Hn i _ E).
  - destruct (hit (c :: s)) as [t|] eqn:E.
    + destruct (Hs i _ _ E) as [e He]. rewrite He. eauto.
    + rewrite (Hn i _ E). apply IH.
Qed.

Lemma search_pattern1 (s : str) :
  match scan hit1 s with
  | Some t => exists e, search pattern1 s = Some (mkMatch e (Some t))
  | None => search pattern1 s = None
  end.
Proof.
  apply search_from_scan.
  - intros i u t. apply match_at_pattern1_some.
  - intros i u. apply match_at_pattern1_none.
Qed.

Lemma search_pattern2 (s : str) :
  match scan hit2 s with
  | Some t => exists e, search pattern2 s = Some (mkMatch e (Some t))
  | None => search pattern2 s = None
  end.
Proof.
  apply search_from_scan.
  - intros i u t. apply match_at_pattern2_some.
  - intros i u. apply match_at_pattern2_none.
Qed.

Lemma search_from_pattern3_later (s : str) : forall i,
  search_from pattern3 (Datatypes.S i) s = None.
Proof.
  induction s as [|c s IH]; intros i; cbn [search_from];
    rewrite match_at_pattern3_later; [reflexivity|apply IH].
Qed.

Lemma search_pattern3 (s : str) :
  search pattern3 s
  = match hit3 s with
    | Some t => Some (mkMatch 11 (Some t))
    | None => None
    end.
Proof.
  unfold search. destruct s as [|c s]; cbn [search_from];
    rewrite match_at_pattern3_start.
  - now destruct (hit3 []).
  - destruct (hit3 (c :: s)); [reflexivity|]. apply search_from_pattern3_later.
Qed.

Lemma get_video_id_spec (url : str) : get_video_id url = video_id_of url.
Proof.
  unfold get_video_id, video_id_of, patterns, first_group.
  pose proof (search_pattern1 url) as H1.
  destruct (scan hit1 url) as [t|].
  - destruct H1 as [e ->]. reflexivity.
  - rewrite H1. pose proof (search_pattern2 url) as H2.
    destruct (scan hit2 url) as [t|].
    + destruct H2 as [e ->]. reflexivity.
    + rewrite H2, search_pattern3. now destruct (hit3 url).
Qed.

Lemma get_video_id_without_embed_spec (url : str) :
  get_video_id_without_embed url
  = match scan hit1 url with
    | Some t => Some t
    | None => hit3 url
    end.
Proof.
  unfold get_video_id_without_embed, first_group.
  pose proof (search_pattern1 url) as H1.
  destruct (scan hit1 url) as [t|].
  - destruct H1 as [e ->]. reflexivity.
  - rewrite H1, search_pattern3. now destruct (hit3 url).
Qed.

End Matcher.

(* ===================================================================== *)
(** * Tokens, separators and the leftmost match *)
(* ===================================================================== *)

Section Tokens.

Lemma token_at_some_iff (s t : str) :
  token_at s = Some t <-> exists post, s = t ++ post /\ token t.
Proof.
  unfold token_at, token. split.
  - intros H.
    destruct ((11 <=? length s) && forallb is_id_char (firstn 11 s)) eqn:E; [|discriminate].
    assert (firstn 11 s = t) as <- by congruence. clear H.
    apply andb_true_iff in E. destruct E as [Hl Hf].
    apply Nat.leb_le in Hl. exists (skipn 11 s). repeat split.
    + now rewrite firstn_skipn.
    + rewrite length_firstn. lia.
    + exact Hf.
  - intros (post & -> & Hl & Hf).
    assert (firstn 11 (t ++ post) = t) as ->.
    { rewrite <- Hl. rewrite firstn_app, Nat.sub_diag, firstn_all. simpl. apply app_nil_r. }
    rewrite Hf, length_app, Hl. reflexivity.
Qed.

Lemma after_some_iff (sep s t : str) :
  after sep s = Some t <-> exists post, s = sep ++ t ++ post /\ token t.
Proof.
  unfold after. split.
  - intros H. destruct (startswith sep s) eqn:E; [|discriminate].
    apply startswith_inv in E. apply token_at_some_iff in H.
    destruct H as (post & Hp & Ht). exists post. split; [|exact Ht].
    rewrite E at 1. now rewrite Hp.
  - intros (post & -> & Ht). rewrite startswith_app, skipn_length_app.
    apply token_at_some_iff. now exists post.
Qed.

Lemma after_mono (sep a b t : str) :
  after sep a = Some t -> after sep (a ++ b) = Some t.
Proof.
  rewrite !after_some_iff. intros (post & -> & Ht). exists (post ++ b).
  split; [|exact Ht]. now rewrite <- !app_assoc.
Qed.

Lemma token_chars (t : str) (c : char) :
  token t -> In c t -> is_id_char c = true.
Proof. intros [_ Hf] Hc. rewrite forallb_forall in Hf. now apply Hf. Qed.

(** A match that starts in [a] cannot take in a following character that is
    neither an identifier character nor part of the separator's tail. *)
Lemma after_cut (sep a rest t : str) (c : char) :
  after sep (a ++ c :: rest) = Some t ->
  a <> [] -> ~ In c (tl sep) -> is_id_char c = false ->
  after sep a = Some t.
Proof.
  rewrite !after_some_iff. intros (post & Heq & Ht) Ha Hsep Hc.
  rewrite app_assoc in Heq. apply app_eq_app in Heq.
  destruct Heq as [l [[H1 H2]|[H1 H2]]].
  - exists l. split; [|exact Ht]. now rewrite <- app_assoc in H1.
  - destruct l as [|x l].
    + exists []. split; [|exact Ht]. rewrite app_nil_r in H1.
      rewrite app_nil_r. now symmetry.
    + exfalso. simpl in H2. injection H2 as <- _.
      destruct a as [|y a]; [now apply Ha|].
      assert (In c (tl (sep ++ t))) as Hin.
      { rewrite H1. simpl. apply in_or_app. right. now left. }
      destruct sep as [|s0 sep]; simpl in Hin.
      * destruct t as [|t0 t]; simpl in Hin; [exact Hin|].
        assert (is_id_char c = true) by (eapply token_chars; [exact Ht|now right]).
        congruence.
      * apply in_app_or in Hin. destruct Hin as [Hin|Hin]; [now apply Hsep|].
        assert (is_id_char c = true) by (eapply token_chars; [exact Ht|exact Hin]).
        congruence.
Qed.

Lemma hit1_mono (a b t : str) : hit1 a = Some t -> hit1 (a ++ b) = Some t.
Proof.
  unfold hit1. intros H.
  destruct (after (lit "v=") a) as [t'|] eqn:E.
  - injection H as ->. now rewrite (@after_mono _ _ b _ E).
  - pose proof (@after_mono _ _ b _ H) as H'.
    destruct (after (lit "v=") (a ++ b)) as [t''|] eqn:E'; [|exact H'].
    (* both separators at the head: impossible *)
    apply after_some_iff in E'. apply after_some_iff in H'.
    destruct E' as (p1 & E1 & _). destruct H' as (p2 & E2 & _).
    rewrite E1 in E2. discriminate.
Qed.

Lemma hit1_cut (a rest t : str) (c : char) :
  hit1 (a ++ c :: rest) = Some t ->
  a <> [] -> c <> 61%N -> is_id_char c = false ->
  hit1 a = Some t.
Proof.
  unfold hit1. intros H Ha Heq Hc.
  destruct (after (lit "v=") (a ++ c :: rest)) as [t'|] eqn:E.
  - injection H as ->. erewrite after_cut; eauto.
    simpl. intros [H|[]]. now apply Heq.
  - assert (after (lit "/") a = Some t) as H'.
    { eapply after_cut; eauto. }
    rewrite H'. destruct (after (lit "v=") a) as [t''|] eqn:E'; [|reflexivity].
    now rewrite (@after_mono _ _ (c :: rest) _ E') in E.
Qed.

Lemma scan_none_iff (hit : str -> option str) (s : str) :
  scan hit s = None <-> forall a b, s = a ++ b -> hit b = None.
Proof.
  induction s as [|c s IH]; simpl.
  - split.
    + intros H a b Hab. symmetry in Hab. apply app_eq_nil in Hab.
      destruct Hab as [_ ->]. now destruct (hit []).
    + intros H. now rewrite (H [] [] eq_refl).
  - split.
    + intros H a b Hab. destruct (hit (c :: s)) eqn:E; [discriminate|].
      destruct a as [|x a]; simpl in Hab.
      * now subst b.
      * injection Hab as _ Hab. rewrite IH in H. now apply (H a b).
    + intros H. rewrite (H [] (c :: s) eq_refl). apply IH.
      intros a b ->. now apply (H (c :: a) b).
Qed.

Lemma scan_some_inv (hit : str -> option str) (s t : str) :
  scan hit s = Some t -> exists a b, s = a ++ b /\ hit b = Some t.
Proof.
  induction s as [|c s IH]; simpl; intros H.
  - destruct (hit []) eqn:E; [|discriminate]. exists [], []. now rewrite E.
  - destruct (hit (c :: s)) eqn:E.
    + exists [], (c :: s). now rewrite E.
    + destruct (IH H) as (a & b & -> & Hb). now exists (c :: a), b.
Qed.

(** The leftmost match: nothing starts in [a], so the scan goes on at [b]. *)
Lemma scan_skip (hit : str -> option str) (a b : str) :
  (forall a1 a2, a = a1 ++ a2 -> a2 <> [] -> hit (a2 ++ b) = None) ->
  scan hit (a ++ b) = scan hit b.
Proof.
  induction a as [|c a IH]; intros H; [reflexivity|].
  change ((c :: a) ++ b) with (c :: (a ++ b)). cbn [scan].
  change (c :: (a ++ b)) with ((c :: a) ++ b).
  rewrite (H [] (c :: a) eq_refl) by discriminate.
  apply IH. intros a1 a2 -> Hne. now apply (H (c :: a1) a2).
Qed.

Lemma scan_hit1_skip (a rest : str) (c : char) :
  scan hit1 a = None -> c <> 61%N -> is_id_char c = false ->
  scan hit1 (a ++ c :: rest) = scan hit1 (c :: rest).
Proof.
  intros Hs Heq Hc. apply scan_skip. intros a1 a2 -> Hne.
  destruct (hit1 (a2 ++ c :: rest)) as [t|] eqn:E; [|reflexivity].
  apply hit1_cut in E; auto.
  rewrite scan_none_iff in Hs. now rewrite (Hs a1 a2 eq_refl) in E.
Qed.

Lemma scan_none_prefix (a b : str) :
  scan hit1 (a ++ b) = None -> scan hit1 a = None.
Proof.
  rewrite !scan_none_iff. intros H a1 a2 ->.
  destruct (hit1 a2) as [t|] eqn:E; [|reflexivity].
  apply hit1_mono with (b := b) in E. rewrite (H a1 (a2 ++ b)) in E; [discriminate|].
  now rewrite app_assoc.
Qed.

(** A text of identifier characters holds no separator. *)
Lemma after_none_id_text (sep s : str) :
  forallb is_id_char s = true ->
  existsb (fun c => negb (is_id_char c)) sep = true ->
  after sep s = None.
Proof.
  intros Hs Hsep. destruct (after sep s) as [t|] eqn:E; [|reflexivity].
  apply after_some_iff in E. destruct E as (post & -> & _).
  rewrite forallb_app in Hs. apply andb_true_iff in Hs. destruct Hs as [Hs _].
  apply existsb_exists in Hsep. destruct Hsep as (c & Hin & Hc).
  rewrite forallb_forall in Hs. rewrite (Hs c Hin) in Hc. discriminate.
Qed.

Lemma forallb_suffix (f : char -> bool) (a b : str) :
  forallb f (a ++ b) = true -> forallb f b = true.
Proof. rewrite forallb_app. intros H. now apply andb_true_iff in H. Qed.

Lemma scan_hit1_id_text (s : str) :
  forallb is_id_char s = true -> scan hit1 s = None.
Proof.
  intros Hs. apply scan_none_iff. intros a b ->.
  apply forallb_suffix in Hs. unfold hit1.
  rewrite (@after_none_id_text (lit "v=") _ Hs) by reflexivity.
  now apply after_none_id_text.
Qed.

Lemma scan_hit2_id_text (s : str) :
  forallb is_id_char s = true -> scan hit2 s = None.
Proof.
  intros Hs. apply scan_none_iff. intros a b ->.
  apply forallb_suffix in Hs. unfold hit2. now apply after_none_id_text.
Qed.

Lemma hit3_token (t : str) : token t -> hit3 t = Some t.
Proof.
  intros Ht. unfold hit3.
  assert (token_at t = Some t) as ->.
  { apply token_at_some_iff. exists []. now rewrite app_nil_r. }
  destruct Ht as [Hl _]. rewrite <- Hl, skipn_all. reflexivity.
Qed.

(** Whatever pattern 2 finds, pattern 1 finds something. *)
Lemma scan_hit2_hit1 (s : str) : scan hit1 s = None -> scan hit2 s = None.
Proof.
  intros H1. destruct (scan hit2 s) as [t|] eqn:E; [|reflexivity].
  apply scan_some_inv in E. destruct E as (a & b & -> & Hb).
  unfold hit2 in Hb. apply after_some_iff in Hb. destruct Hb as (post & -> & Ht).
  rewrite scan_none_iff in H1.
  specialize (H1 (a ++ lit "embed") (lit "/" ++ t ++ post)).
  assert (hit1 (lit "/" ++ t ++ post) = Some t) as Hh.
  { unfold hit1.
    assert (after (lit "v=") (lit "/" ++ t ++ post) = None) as -> by reflexivity.
    apply after_some_iff. now exists post. }
  rewrite H1 in Hh; [discriminate|].
  rewrite <- app_assoc. reflexivity.
Qed.

End Tokens.

(* ===================================================================== *)
(** * The identifier extractor *)
(* ===================================================================== *)

Section Extractor.

Lemma search_pattern1_none (s : str) :
  search pattern1 s = None -> scan hit1 s = None.
Proof.
  intros H. pose proof (search_pattern1 s) as Hs.
  destruct (scan hit1 s) as [t|]; [|reflexivity].
  destruct Hs as [e He]. congruence.
Qed.

Lemma hit1_slash (t post : str) : token t -> hit1 (lit "/" ++ t ++ post) = Some t.
Proof.
  intros Ht. unfold hit1.
  assert (after (lit "v=") (lit "/" ++ t ++ post) = None) as -> by reflexivity.
  apply after_some_iff. now exists post.
Qed.

Lemma hit1_v (t post : str) : token t -> hit1 (lit "v=" ++ t ++ post) = Some t.
Proof.
  intros Ht. unfold hit1.
  assert (after (lit "v=") (lit "v=" ++ t ++ post) = Some t) as ->
    by (apply after_some_iff; now exists post).
  reflexivity.
Qed.

Lemma scan_hit (hit : str -> option str) (s t : str) :
  hit s = Some t -> scan hit s = Some t.
Proof. intros H. destruct s; simpl; now rewrite H. Qed.

Lemma get_video_id_watch_shape (t pre post : str) :
  token t -> search pattern1 (pre ++ lit "watch?") = None ->
  get_video_id (pre ++ lit "watch?v=" ++ t ++ post) = Some t.
Proof.
  intros Ht Hs. apply search_pattern1_none in Hs.
  change (lit "watch?") with (lit "watch" ++ [63%N]) in Hs.
  rewrite app_assoc in Hs. apply scan_none_prefix in Hs.
  rewrite get_video_id_spec. unfold video_id_of.
  change (pre ++ lit "watch?v=" ++ t ++ post)
    with (pre ++ lit "watch" ++ 63%N :: (lit "v=" ++ t ++ post)).
  rewrite app_assoc.
  rewrite scan_hit1_skip; [|exact Hs|discriminate|reflexivity].
  cbn [scan].
  change (hit1 (63%N :: lit "v=" ++ t ++ post)) with (@None str).
  now rewrite (scan_hit hit1 _ (hit1_v post Ht)).
Qed.

Lemma get_video_id_embed_shape (t pre post : str) :
  token t -> search pattern1 (pre ++ lit "embed") = None ->
  get_video_id (pre ++ lit "embed/" ++ t ++ post) = Some t.
Proof.
  intros Ht Hs. apply search_pattern1_none in Hs.
  rewrite get_video_id_spec. unfold video_id_of.
  change (pre ++ lit "embed/" ++ t ++ post)
    with (pre ++ lit "embed" ++ 47%N :: (t ++ post)).
  rewrite app_assoc.
  rewrite scan_hit1_skip; [|exact Hs|discriminate|reflexivity].
  change (scan hit1 (47%N :: t ++ post)) with (scan hit1 (lit "/" ++ t ++ post)).
  now rewrite (scan_hit hit1 _ (hit1_slash post Ht)).
Qed.

Lemma get_video_id_bare_shape (t : str) : token t -> get_video_id t = Some t.
Proof.
  intros Ht. rewrite get_video_id_spec. unfold video_id_of.
  destruct Ht as [Hl Hf].
  rewrite (scan_hit1_id_text _ Hf), (scan_hit2_id_text _ Hf).
  now apply hit3_token.
Qed.

Lemma reachable_get_video_id (url t : str) :
  reachable url t -> get_video_id url <> None.
Proof.
  intros [Ht H]. rewrite get_video_id_spec. unfold video_id_of.
  destruct (scan hit1 url) as [x|] eqn:E1; [discriminate|].
  destruct (scan hit2 url) as [x|] eqn:E2; [discriminate|].
  rewrite scan_none_iff in E1, E2.
  destruct H as [(pre & post & [->| ->])|[(pre & post & ->)| H]].
  - pose proof (hit1_v post Ht) as Hh.
    rewrite (E1 pre _ eq_refl) in Hh. discriminate.
  - pose proof (hit1_slash post Ht) as Hh.
    rewrite (E1 pre _ eq_refl) in Hh. discriminate.
  - assert (hit2 (lit "embed/" ++ t ++ post) = Some t) as Hh
      by (apply after_some_iff; now exists post).
    rewrite (E2 pre _ eq_refl) in Hh. discriminate.
  - destruct H as [->| ->].
    + now rewrite (hit3_token Ht).
    + unfold hit3.
      assert (token_at (t ++ [NL]) = Some t) as ->
        by (apply token_at_some_iff; now exists [NL]).
      destruct Ht as [Hl _]. rewrite <- Hl, skipn_app, skipn_all, Nat.sub_diag.
      simpl. discriminate.
Qed.

Lemma get_video_id_some_reachable (url t : str) :
  get_video_id url = Some t -> reachable url t.
Proof.
  rewrite get_video_id_spec. unfold video_id_of, reachable. intros H.
  destruct (scan hit1 url) as [x|] eqn:E1.
  - injection H as ->. apply scan_some_inv in E1.
    destruct E1 as (a & b & -> & Hb). unfold hit1 in Hb.
    destruct (after (lit "v=") b) as [y|] eqn:Ev.
    + injection Hb as ->. apply after_some_iff in Ev.
      destruct Ev as (post & -> & Ht). split; [exact Ht|].
      left. exists a, post. now left.
    + apply after_some_iff in Hb. destruct Hb as (post & -> & Ht).
      split; [exact Ht|]. left. exists a, post. now right.
  - destruct (scan hit2 url) as [x|] eqn:E2.
    + injection H as ->. apply scan_some_inv in E2.
      destruct E2 as (a & b & -> & Hb). apply after_some_iff in Hb.
      destruct Hb as (post & -> & Ht). split; [exact Ht|].
      right. left. now exists a, post.
    + unfold hit3 in H. destruct (token_at url) as [x|] eqn:E3; [|discriminate].
      apply token_at_some_iff in E3. destruct E3 as (post & -> & Ht).
      destruct Ht as [Hl Hf].
      rewrite <- Hl, skipn_app, skipn_all, Nat.sub_diag in H. simpl in H.
      destruct post as [|c [|d post]].
      * injection H as ->. split; [now split|]. right. right. left.
        now rewrite app_nil_r.
      * destruct (c =? NL)%N eqn:Ec; [|discriminate]. injection H as ->.
        apply N.eqb_eq in Ec. subst c. split; [now split|].
        right. right. now right.
      * discriminate.
Qed.

End Extractor.

(* ===================================================================== *)
(** * The transcript fetcher *)
(* ===================================================================== *)

Section Fetcher.

Variable S : Services.

Lemma get_video_id_truthy (url vid : str) :
  get_video_id url = Some vid -> falsy vid = false.
Proof.
  intros H. apply get_video_id_some_reachable in H.
  destruct H as [[Hl _] _]. now destruct vid.
Qed.

(** [download_transcript], case by case. *)
Lemma download_transcript_no_id (url language : str) (log : list call) :
  get_video_id url = None ->
  download_transcript S url language log
  = (inl (download_failed (mkExn ValueError msg_invalid_url)), log).
Proof.
  intros H. unfold download_transcript, try_except, download_transcript_body.
  now rewrite H.
Qed.

Lemma download_transcript_cases (url language vid : str) (log : list call) :
  get_video_id url = Some vid ->
  let log1 := log ++ [attempt1 vid language] in
  let log2 := log1 ++ [attempt2 vid] in
  let log3 := log2 ++ [attempt3 vid] in
  download_transcript S url language log
  = match yt_fetch S log vid (Some [language]) with
    | inr segments => (inr (flat_text segments), log1)
    | inl _ =>
      match yt_fetch S log1 vid (Some [lit "en"]) with
      | inr segments => (inr (flat_text segments), log2)
      | inl _ =>
        match yt_fetch S log2 vid None with
        | inr segments => (inr (flat_text segments), log3)
        | inl e => (inl (download_failed e), log3)
        end
      end
    end.
Proof.
  intros H. cbv zeta.
  unfold download_transcript, download_transcript_body.
  rewrite H, (get_video_id_truthy _ H).
  unfold try_except, bind, api_fetch, ret, raise, attempt1, attempt2, attempt3.
  destruct (yt_fetch S log vid (Some [language])); [|reflexivity].
  destruct (yt_fetch S _ vid (Some [lit "en"])); [|reflexivity].
  destruct (yt_fetch S _ vid None); reflexivity.
Qed.

(** The calls [download_transcript] adds to the log are fetches, at most
    three. *)
Lemma download_transcript_log (url language : str) (log : list call) :
  exists calls,
    snd (download_transcript S url language log) = log ++ calls
    /\ forallb is_fetch calls = true /\ length calls <= 3.
Proof.
  destruct (get_video_id url) as [vid|] eqn:E.
  - rewrite (download_transcript_cases _ language log E). cbv zeta.
    destruct (yt_fetch S log vid (Some [language])).
    + destruct (yt_fetch S _ vid (Some [lit "en"])).
      * exists [attempt1 vid language; attempt2 vid; attempt3 vid].
        rewrite <- !app_assoc.
        destruct (yt_fetch S _ vid None); simpl; repeat split; lia.
      * exists [attempt1 vid language; attempt2 vid].
        rewrite <- !app_assoc. simpl; repeat split; lia.
    + exists [attempt1 vid language]. simpl; repeat split; lia.
  - rewrite (download_transcript_no_id _ language log E).
    exists []. rewrite app_nil_r. simpl; repeat split; lia.
Qed.

End Fetcher.

(** Splitting the flat text at the newlines gives the segments back. *)
Section FlatText.

Lemma split_go_line (x : str) : forall cur rest,
  ~ In NL x ->
  split_go [NL] 0 cur (x ++ rest) = split_go [NL] 0 (rev x ++ cur) rest.
Proof.
  induction x as [|c x IH]; intros cur rest Hx; [reflexivity|].
  simpl app. cbn [split_go startswith].
  destruct (NL =? c)%N eqn:E.
  - apply N.eqb_eq in E. exfalso. apply Hx. now left.
  - simpl. rewrite IH.
    + now rewrite <- app_assoc.
    + intros Hin. apply Hx. now right.
Qed.

Lemma split_join_lines (xs : list str) :
  xs <> [] -> Forall (fun x => ~ In NL x) xs ->
  split [NL] (join [NL] xs) = xs.
Proof.
  unfold split. intros Hne Hall.
  induction xs as [|x xs IH]; [congruence|].
  inversion Hall as [|? ? Hx Hxs]; subst.
  destruct xs as [|y xs].
  - simpl join. rewrite <- (app_nil_r x) at 1.
    rewrite split_go_line by exact Hx. simpl. now rewrite app_nil_r, rev_involutive.
  - change (join [NL] (x :: y :: xs)) with (x ++ NL :: join [NL] (y :: xs)).
    rewrite split_go_line by exact Hx.
    cbn [split_go startswith]. rewrite N.eqb_refl. simpl length. simpl Nat.sub.
    cbn [andb]. rewrite app_nil_r, rev_involutive. f_equal.
    apply IH; [discriminate|exact Hxs].
Qed.

End FlatText.

(* ===================================================================== *)
(** * The script generator and the request handler *)
(* ===================================================================== *)

Section Handler.

Variable S : Services.

Lemma generate_shorts_script_no_key (transcript_text style : str) (log : list call) :
  generate_shorts_script S transcript_text [] style log
  = (inl (script_failed (mkExn ValueError msg_key_required)), log).
Proof. reflexivity. Qed.

Lemma generate_shorts_script_cases (transcript_text key style : str) (log : list call) :
  falsy key = false ->
  let log1 := log ++ [llm_call transcript_text key style] in
  generate_shorts_script S transcript_text key style log
  = match llm_invoke S log (lit "gpt-4o-mini") key 0.3%float
            (prompt_of transcript_text style) with
    | inl e =>
      if is_json_decode_error e
      then (inl (mkExn UnboundLocalError msg_unbound_content), log1)
      else (inl (script_failed e), log1)
    | inr reply =>
      match extract_json reply with
      | inl e => (inl (script_failed e), log1)
      | inr content =>
        match json_loads S content with
        | inl msg => (inl (json_failed msg content), log1)
        | inr result => (inr result, log1)
        end
      end
    end.
Proof.
  intros Hk. cbv zeta. unfold generate_shorts_script, model_invoke, llm_call.
  rewrite Hk. reflexivity.
Qed.

Lemma generate_shorts_stages (request : VideoRequest) (log : list call) :
  generate_shorts S request log
  = match download_transcript S (video_url request) (lit "ko") log with
    | (inl e, log1) => (inl (http500 e), log1)
    | (inr transcript_text, log1) =>
      match generate_shorts_script S transcript_text (api_key request)
              (style request) log1 with
      | (inl e, log2) => (inl (http500 e), log2)
      | (inr script, log2) =>
        match response_of S script with
        | inl e => (inl (http500 e), log2)
        | inr r => (inr r, log2)
        end
      end
    end.
Proof.
  unfold generate_shorts, generate_shorts_body, bind, lift, response_of.
  destruct (download_transcript S (video_url request) (lit "ko") log) as [[e|txt] log1];
    [reflexivity|].
  destruct (generate_shorts_script S txt (api_key request) (style request) log1)
    as [[e|script] log2]; [reflexivity|].
  destruct (getitem script (lit "title")); [reflexivity|].
  destruct (getitem script (lit "subtitles")); [reflexivity|].
  destruct (getitem script (lit "narration")); [reflexivity|].
  destruct (getitem script (lit "visual_suggestions")); [reflexivity|].
  destruct (new_response S _ _ _ _); reflexivity.
Qed.

(** The calls [generate_shorts_script] adds to the log: none, or the one
    call to the model. *)
Lemma generate_shorts_script_log (transcript_text key style : str) (log : list call) :
  snd (generate_shorts_script S transcript_text key style log)
  = if falsy key then log else log ++ [llm_call transcript_text key style].
Proof.
  destruct (falsy key) eqn:Hk.
  - destruct key; [reflexivity|discriminate].
  - rewrite generate_shorts_script_cases by exact Hk. cbv zeta.
    destruct (llm_invoke S log _ key _ _) as [e|reply].
    + now destruct (is_json_decode_error e).
    + destruct (extract_json reply) as [e|content]; [reflexivity|].
      now destruct (json_loads S content).
Qed.

(** A script that lacks a required field has no response. *)
Lemma response_of_missing (script : pyvalue) :
  forallb (has_field script) required_fields = false ->
  exists e, response_of S script = inl e.
Proof.
  unfold required_fields, has_field, response_of. simpl forallb.
  destruct (getitem script (lit "title")) as [e|a]; [now exists e|].
  destruct (getitem script (lit "subtitles")) as [e|b]; [now exists e|].
  destruct (getitem script (lit "narration")) as [e|c]; [now exists e|].
  destruct (getitem script (lit "visual_suggestions")) as [e|d]; [now exists e|].
  discriminate.
Qed.

Lemma response_of_no_narration (items : list (str * pyvalue)) :
  dict_get items (lit "title") <> None ->
  dict_get items (lit "subtitles") <> None ->
  dict_get items (lit "narration") = None ->
  response_of S (PyDict items)
  = inl (mkExn KeyError (repr_key (lit "narration"))).
Proof.
  intros Ht Hs Hn. unfold response_of, getitem.
  destruct (dict_get items (lit "title")); [|congruence].
  destruct (dict_get items (lit "subtitles")); [|congruence].
  now rewrite Hn.
Qed.

End Handler.

(* ===================================================================== *)
(** * The code fence *)
(* ===================================================================== *)

Section Fence.

Lemma rstrip_space (s : str) (w : char) :
  isspace w = true -> rstrip (s ++ [w]) = rstrip s.
Proof.
  intros Hw. unfold rstrip. rewrite rev_app_distr. simpl. now rewrite Hw.
Qed.

Lemma rstrip_nonspace (s : str) (c : char) :
  isspace c = false -> rstrip (s ++ [c]) = s ++ [c].
Proof.
  intros Hc. unfold rstrip. rewrite rev_app_distr. simpl. rewrite Hc.
  simpl. now rewrite rev_involutive.
Qed.

Lemma strip_padded_line (s : str) : strip (NL :: s ++ [NL]) = strip s.
Proof.
  unfold strip. change (lstrip (NL :: s ++ [NL])) with (lstrip (s ++ [NL])).
  induction s as [|c s IH]; [reflexivity|].
  simpl. destruct (isspace c) eqn:Hc; [exact IH|].
  change (c :: s ++ [NL]) with ((c :: s) ++ [NL]). now apply rstrip_space.
Qed.

Lemma lstrip_suffix (s : str) : exists a, s = a ++ lstrip s.
Proof.
  induction s as [|c s [a IH]]; [now exists []|].
  simpl. destruct (isspace c).
  - exists (c :: a). simpl. now f_equal.
  - now exists [].
Qed.

Lemma rstrip_prefix (s : str) : exists w, s = rstrip s ++ w.
Proof.
  unfold rstrip. destruct (lstrip_suffix (rev s)) as [a Ha].
  exists (rev a). rewrite <- rev_app_distr, <- Ha. now rewrite rev_involutive.
Qed.

Lemma startswith_mono (p a b : str) :
  startswith p a = true -> startswith p (a ++ b) = true.
Proof.
  revert a. induction p as [|c p IH]; intros a H; [reflexivity|].
  destruct a as [|x a]; [discriminate|]. simpl in *.
  apply andb_true_iff in H. destruct H as [-> H]. now apply IH.
Qed.

Lemma contains_head (s : str) :
  contains FENCE s = false -> startswith FENCE s = false.
Proof.
  destruct s; simpl; [auto|]. intros H. now apply orb_false_iff in H.
Qed.

Lemma contains_suffix (a b : str) :
  contains FENCE (a ++ b) = false -> contains FENCE b = false.
Proof.
  induction a as [|c a IH]; [auto|]. simpl app. cbn [contains].
  intros H. apply orb_false_iff in H. now apply IH.
Qed.

Lemma strip_not_fenced (s : str) :
  contains FENCE s = false -> startswith FENCE (strip s) = false.
Proof.
  intros H. unfold strip.
  destruct (lstrip_suffix s) as [a Ha]. rewrite Ha in H.
  apply contains_suffix, contains_head in H.
  destruct (rstrip_prefix (lstrip s)) as [w Hw].
  destruct (startswith FENCE (rstrip (lstrip s))) eqn:E; [|reflexivity].
  apply startswith_mono with (b := w) in E. rewrite <- Hw in E. congruence.
Qed.

(** A fence that starts in [s] and runs into a following line break starts
    a fence within [s]: impossible, the run would hold the line break. *)
Lemma startswith_fence_line (s rest : str) :
  startswith FENCE (s ++ NL :: rest) = startswith FENCE s.
Proof. destruct s as [|x [|y [|z s]]]; simpl; now rewrite ?andb_false_r. Qed.

Lemma no_fence_start_text (text rest : str) :
  contains FENCE text = false -> no_fence_start text (NL :: rest) = true.
Proof.
  induction text as [|c text IH]; [reflexivity|].
  cbn [contains no_fence_start]. intros H. apply orb_false_iff in H.
  destruct H as [H1 H2]. rewrite startswith_fence_line, H1. simpl. now apply IH.
Qed.

Lemma no_fence_start_app (a b rest : str) :
  no_fence_start (a ++ b) rest = no_fence_start a (b ++ rest) && no_fence_start b rest.
Proof.
  induction a as [|c a IH]; [reflexivity|].
  simpl app. cbn [no_fence_start]. rewrite IH.
  change (c :: a ++ b) with ((c :: a) ++ b). now rewrite <- app_assoc, andb_assoc.
Qed.

Lemma split_go_body (body : str) : forall cur rest,
  no_fence_start body (FENCE ++ rest) = true ->
  split_go FENCE 0 cur (body ++ FENCE ++ rest)
  = (rev cur ++ body) :: split_go FENCE 2 [] (skipn 1 (FENCE ++ rest)).
Proof.
  induction body as [|c body IH]; intros cur rest H.
  - now rewrite app_nil_r.
  - cbn [no_fence_start] in H. apply andb_true_iff in H. destruct H as [H1 H2].
    apply negb_true_iff in H1.
    change ((c :: body) ++ FENCE ++ rest) with (c :: (body ++ FENCE ++ rest)).
    cbn [split_go].
    change (c :: (body ++ FENCE ++ rest)) with ((c :: body) ++ FENCE ++ rest).
    rewrite H1, IH by exact H2. simpl rev. now rewrite <- app_assoc.
Qed.

Lemma split_fenced_body (body rest : str) :
  no_fence_start body (FENCE ++ rest) = true ->
  nth_error (split FENCE (FENCE ++ body ++ FENCE ++ rest)) 1 = Some body.
Proof.
  intros H. unfold split.
  change (split_go FENCE 0 [] (FENCE ++ body ++ FENCE ++ rest))
    with ([] :: split_go FENCE 0 [] (body ++ FENCE ++ rest)).
  now rewrite split_go_body.
Qed.

Lemma strip_fenced (tag text : str) : strip (fenced tag text) = fenced tag text.
Proof.
  unfold strip, fenced.
  change (lstrip (FENCE ++ tag ++ NL :: text ++ NL :: FENCE))
    with (FENCE ++ tag ++ NL :: text ++ NL :: FENCE).
  replace (FENCE ++ tag ++ NL :: text ++ NL :: FENCE)
    with ((FENCE ++ tag ++ NL :: text ++ [NL; 96; 96]%N) ++ [96%N]).
  - now apply rstrip_nonspace.
  - repeat (rewrite <- app_assoc; simpl). reflexivity.
Qed.

Lemma extract_json_plain (reply : str) :
  startswith FENCE (strip reply) = false -> extract_json reply = inr (strip reply).
Proof. intros H. unfold extract_json. now rewrite H. Qed.

Lemma extract_json_fenced (tag text : str) :
  tag = [] \/ tag = lit "json" ->
  contains FENCE text = false ->
  extract_json (fenced tag text) = inr (strip text).
Proof.
  intros Htag Hc. unfold extract_json. rewrite strip_fenced.
  assert (startswith FENCE (fenced tag text) = true) as -> by apply startswith_app.
  unfold fenced at 1.
  replace (FENCE ++ tag ++ NL :: text ++ NL :: FENCE)
    with (FENCE ++ (tag ++ NL :: text ++ [NL]) ++ FENCE ++ []).
  2:{ rewrite app_nil_r. repeat (rewrite <- app_assoc; simpl). reflexivity. }
  rewrite split_fenced_body.
  - destruct Htag as [->| ->].
    + simpl app. cbn [startswith]. simpl. now rewrite strip_padded_line.
    + change (startswith (lit "json") (lit "json" ++ NL :: text ++ [NL])) with true.
      cbv iota. change (skipn 4 (lit "json" ++ NL :: text ++ [NL]))
        with (NL :: text ++ [NL]).
      now rewrite strip_padded_line.
  - rewrite no_fence_start_app.
    assert (no_fence_start (NL :: text ++ [NL]) (FENCE ++ []) = true) as Hb.
    { cbn [no_fence_start]. simpl negb. simpl andb.
      rewrite no_fence_start_app. cbn [app].
      rewrite no_fence_start_text by exact Hc. reflexivity. }
    rewrite Hb, andb_true_r. destruct Htag as [->| ->]; reflexivity.
Qed.

End Fence.

Unset Implicit Arguments.

(* ===================================================================== *)
(** * Properties of the transcript fetcher *)
(* ===================================================================== *)

(** C1.  For every video identifier the transcript fetcher tries the
    preferred language (the handler passes ["ko"]), then ["en"], then no
    language, in that order, each attempt only when the one before failed;
    the first success is returned.  In particular, when the first attempt
    fails and the second succeeds, the second's content is returned and the
    log holds two fetches: the third is never made.  When all three fail, one
    failure is raised. *)
Theorem download_transcript_fallback_order
  (S : Services) (url language vid : str) (log : list call) :
  get_video_id url = Some vid ->
  let log1 := log ++ [Fetch vid (Some [language])] in
  let log2 := log1 ++ [Fetch vid (Some [lit "en"])] in
  let log3 := log2 ++ [Fetch vid None] in
  let r1 := yt_fetch S log vid (Some [language]) in
  let r2 := yt_fetch S log1 vid (Some [lit "en"]) in
  let r3 := yt_fetch S log2 vid None in
  (forall segments, r1 = inr segments ->
     download_transcript S url language log = (inr (flat_text segments), log1))
  /\ (forall e1 segments, r1 = inl e1 -> r2 = inr segments ->
     download_transcript S url language log = (inr (flat_text segments), log2))
  /\ (forall e1 e2 segments, r1 = inl e1 -> r2 = inl e2 -> r3 = inr segments ->
     download_transcript S url language log = (inr (flat_text segments), log3))
  /\ (forall e1 e2 e3, r1 = inl e1 -> r2 = inl e2 -> r3 = inl e3 ->
     download_transcript S url language log = (inl (download_failed e3), log3)).
Proof.
  intros Hid. cbv zeta.
  pose proof (@download_transcript_cases S url language vid log Hid) as H. cbv zeta in H.
  unfold attempt1, attempt2, attempt3 in H.
  repeat split.
  - intros segments H1. now rewrite H, H1.
  - intros e1 segments H1 H2. now rewrite H, H1, H2.
  - intros e1 e2 segments H1 H2 H3. now rewrite H, H1, H2, H3.
  - intros e1 e2 e3 H1 H2 H3. now rewrite H, H1, H2, H3.
Qed.

Lemma download_transcript_fallback_order_witness :
  download_transcript Stub.english_only Stub.short_url (lit "ko") []
  = (inr (flat_text Stub.lines),
     [Fetch Stub.short_id (Some [lit "ko"]); Fetch Stub.short_id (Some [lit "en"])]).
Proof.
  assert (Hid : get_video_id Stub.short_url = Some Stub.short_id)
    by (vm_compute; reflexivity).
  destruct (download_transcript_fallback_order
              Stub.english_only Stub.short_url (lit "ko") Stub.short_id [] Hid)
    as (_ & H2 & _).
  exact (H2 Stub.no_track Stub.lines eq_refl eq_refl).
Defined.

(** C9.  Whenever the fetcher returns a text, the last call it made is a
    fetch that succeeded, and the text is the [text] fields of the segments
    that fetch returned, in their order, joined by newlines: nothing of the
    timing is in it, and no segment is dropped or merged (splitting the text
    at the newlines gives the segments' texts back, repeated ones
    included, when no text holds a newline). *)
Theorem download_transcript_flat_text
  (S : Services) (url language : str) (log log' : list call) (full_text : str) :
  download_transcript S url language log = (inr full_text, log') ->
  exists vid languages calls segments,
    log' = log ++ calls ++ [Fetch vid languages]
    /\ yt_fetch S (log ++ calls) vid languages = inr segments
    /\ full_text = join [NL] (map text segments)
    /\ (segments <> [] -> Forall (fun s => ~ In NL (text s)) segments ->
        split [NL] full_text = map text segments).
Proof.
  intros H.
  assert (forall segments : list Snippet,
            segments <> [] -> Forall (fun s => ~ In NL (text s)) segments ->
            split [NL] (flat_text segments) = map text segments) as Hsplit.
  { intros segments Hne Hall. apply split_join_lines.
    - destruct segments; [congruence|discriminate].
    - apply Forall_map. exact Hall. }
  destruct (get_video_id url) as [vid|] eqn:Hid.
  - rewrite (@download_transcript_cases S url language vid log Hid) in H. cbv zeta in H.
    unfold attempt1, attempt2, attempt3 in H.
    destruct (yt_fetch S log vid (Some [language])) as [e1|s1] eqn:E1.
    + destruct (yt_fetch S _ vid (Some [lit "en"])) as [e2|s2] eqn:E2.
      * destruct (yt_fetch S _ vid None) as [e3|s3] eqn:E3; [discriminate|].
        injection H as <- <-.
        exists vid, None, [Fetch vid (Some [language]); Fetch vid (Some [lit "en"])], s3.
        rewrite <- !app_assoc in *. simpl in *. repeat split; auto.
      * injection H as <- <-.
        exists vid, (Some [lit "en"]), [Fetch vid (Some [language])], s2.
        rewrite <- !app_assoc in *. simpl in *. repeat split; auto.
    + injection H as <- <-.
      exists vid, (Some [language]), [], s1.
      rewrite app_nil_r. simpl. repeat split; auto.
  - rewrite (@download_transcript_no_id S url language log Hid) in H. discriminate.
Qed.

Lemma download_transcript_flat_text_witness :
  exists vid languages calls segments,
    [Fetch Stub.short_id (Some [lit "ko"]); Fetch Stub.short_id (Some [lit "en"])]
    = [] ++ calls ++ [Fetch vid languages]
    /\ yt_fetch Stub.english_only ([] ++ calls) vid languages = inr segments
    /\ flat_text Stub.lines = join [NL] (map text segments)
    /\ (segments <> [] -> Forall (fun s => ~ In NL (text s)) segments ->
        split [NL] (flat_text Stub.lines) = map text segments).
Proof.
  apply (download_transcript_flat_text Stub.english_only Stub.short_url (lit "ko") []).
  vm_compute. reflexivity.
Defined.

(** C6 (as the code has it).  When no identifier can be extracted the
    fetcher fails at once, the log unchanged: no fetch is attempted.  The
    [ValueError] it raises is caught by the fetcher's own handler, like every
    other exception, so the error that leaves the fetcher has the same class,
    plain [Exception], whatever failed; only the text after the common prefix
    tells the invalid URL from a provider's failure. *)
Theorem download_transcript_invalid_url
  (S : Services) (url language : str) (log : list call) :
  (get_video_id url = None ->
     download_transcript S url language log
     = (inl (mkExn Exception (msg_download_failed ++ msg_invalid_url)), log))
  /\ (forall e log', download_transcript S url language log = (inl e, log') ->
        exn_class_of e = Exception
        /\ exists cause, exn_str e = msg_download_failed ++ exn_str cause).
Proof.
  split.
  - intros Hid. now rewrite (@download_transcript_no_id S url language log Hid).
  - intros e log' H. destruct (get_video_id url) as [vid|] eqn:Hid.
    + rewrite (@download_transcript_cases S url language vid log Hid) in H.
      cbv zeta in H.
      destruct (yt_fetch S log vid (Some [language])); [|discriminate].
      destruct (yt_fetch S _ vid (Some [lit "en"])); [|discriminate].
      destruct (yt_fetch S _ vid None) as [e3|]; [|discriminate].
      injection H as <- _. split; [reflexivity|]. now exists e3.
    + rewrite (@download_transcript_no_id S url language log Hid) in H.
      injection H as <- _. split; [reflexivity|].
      now exists (mkExn ValueError msg_invalid_url).
Qed.

Lemma download_transcript_invalid_url_witness :
  download_transcript Stub.no_tracks (lit "not a video") (lit "ko") []
  = (inl (mkExn Exception (msg_download_failed ++ msg_invalid_url)), []).
Proof.
  apply (download_transcript_invalid_url Stub.no_tracks (lit "not a video") (lit "ko") []).
  vm_compute. reflexivity.
Defined.

(** C6, as stated, fails: an invalid URL and a provider without transcripts
    make the fetcher raise errors of one and the same class. *)
Lemma download_transcript_same_error_class :
  option_map exn_class_of
    (raised (download_transcript Stub.no_tracks (lit "not a video") (lit "ko") []))
  = Some Exception
  /\ option_map exn_class_of
       (raised (download_transcript Stub.no_tracks Stub.short_url (lit "ko") []))
     = Some Exception
  /\ snd (download_transcript Stub.no_tracks Stub.short_url (lit "ko") [])
     = [Fetch Stub.short_id (Some [lit "ko"]);
        Fetch Stub.short_id (Some [lit "en"]);
        Fetch Stub.short_id None].
Proof. vm_compute. repeat split. Qed.

(* ===================================================================== *)
(** * Properties of the request handler *)
(* ===================================================================== *)

(** C3 (as the code has it).  With an empty [api_key] the request fails with
    the 500 response and the model is never called: the calls made are
    fetches.  The key is looked at by the script generator only, after the
    transcript step: when the URL holds an identifier the transcript provider
    has been called by then.  A body with no [api_key] field never reaches
    the handler, and no call is made. *)
Theorem empty_key_stops_before_model
  (S : Services) (url tone : str) (log : list call) :
  let out := generate_shorts S (mkVideoRequest url [] tone) log in
  (exists detail, fst out = inl (mkHTTPException 500 detail))
  /\ (exists calls, snd out = log ++ calls /\ forallb is_fetch calls = true)
  /\ (forall vid, get_video_id url = Some vid ->
        exists calls, snd out = log ++ Fetch vid (Some [lit "ko"]) :: calls)
  /\ (forall b, body_api_key b = None -> post_summarize S b log = (HttpUnprocessable, log)).
Proof.
  cbv zeta. rewrite generate_shorts_stages. cbn [video_url api_key style].
  pose proof (download_transcript_log S url (lit "ko") log) as (calls & Hlog & Hf & _).
  repeat split.
  - destruct (download_transcript S url (lit "ko") log) as [[e|txt] log1].
    + now exists (exn_str e).
    + rewrite generate_shorts_script_no_key. now eexists.
  - exists calls. split; [|exact Hf]. rewrite <- Hlog.
    destruct (download_transcript S url (lit "ko") log) as [[e|txt] log1];
      [reflexivity|].
    now rewrite generate_shorts_script_no_key.
  - intros vid Hid.
    assert (exists calls', snd (download_transcript S url (lit "ko") log)
                           = log ++ Fetch vid (Some [lit "ko"]) :: calls') as [calls' Hc].
    { rewrite (@download_transcript_cases S url (lit "ko") vid log Hid). cbv zeta.
      unfold attempt1, attempt2, attempt3.
      destruct (yt_fetch S log vid (Some [lit "ko"])); [|now exists []].
      destruct (yt_fetch S _ vid (Some [lit "en"])).
      - destruct (yt_fetch S _ vid None); eexists; simpl;
          rewrite <- !app_assoc; reflexivity.
      - eexists; simpl; rewrite <- !app_assoc; reflexivity. }
    exists calls'. rewrite <- Hc.
    destruct (download_transcript S url (lit "ko") log) as [[e|txt] log1];
      [reflexivity|].
    now rewrite generate_shorts_script_no_key.
  - intros b Hb. unfold post_summarize, parse_body. rewrite Hb.
    now destruct (body_video_url b).
Qed.

Lemma empty_key_stops_before_model_witness :
  (exists calls,
      snd (generate_shorts Stub.all_tracks (mkVideoRequest Stub.short_url [] default_style) [])
      = [] ++ Fetch Stub.short_id (Some [lit "ko"]) :: calls)
  /\ post_summarize Stub.all_tracks (mkBody (Some Stub.short_url) None None) []
     = (HttpUnprocessable, []).
Proof.
  destruct (empty_key_stops_before_model Stub.all_tracks Stub.short_url default_style [])
    as (_ & _ & H3 & H4).
  split.
  - apply H3. vm_compute. reflexivity.
  - apply H4. reflexivity.
Defined.

(** C3, as stated, fails: with an empty key and a URL that holds an
    identifier, the transcript provider is called before the request
    fails. *)
Lemma empty_key_still_fetches :
  generate_shorts Stub.all_tracks (mkVideoRequest Stub.short_url [] default_style) []
  = (inl (mkHTTPException 500 (msg_script_failed ++ msg_key_required)),
     [Fetch Stub.short_id (Some [lit "ko"])]).
Proof. vm_compute. reflexivity. Qed.

(** C8 (as the code has it).  Whatever stage of the handler fails (the
    transcript step, the script step, reading the four fields, building the
    response), the handler raises the same [HTTPException]: status 500, and
    as detail the text of the exception that reached it.  So an invalid URL,
    an empty key, an unavailable transcript, a failed generation (an error of
    the model that is no [JSONDecodeError]) and a malformed reply all come
    out as 500, each with its own text, and a body the framework accepted is
    answered 200 or 500.  A body that lacks [api_key] or [video_url] is no
    failure of the handler: the framework answers it (422) before the
    handler runs, and no call is made. *)
Theorem generate_shorts_failures_uniform
  (S : Services) (request : VideoRequest) (log : list call) :
  let url := video_url request in
  let key := api_key request in
  let tone := style request in
  let fails_with (text : str) (log' : list call) :=
    generate_shorts S request log = (inl (mkHTTPException 500 text), log') in
  (* every failure is a 500 *)
  (forall h log', generate_shorts S request log = (inl h, log') -> status_code h = 500%Z)
  (* stage by stage: the detail is the text of the exception *)
  /\ (forall e log1, download_transcript S url (lit "ko") log = (inl e, log1) ->
        fails_with (exn_str e) log1)
  /\ (forall txt log1 e log2,
        download_transcript S url (lit "ko") log = (inr txt, log1) ->
        generate_shorts_script S txt key tone log1 = (inl e, log2) ->
        fails_with (exn_str e) log2)
  /\ (forall txt log1 script log2 e,
        download_transcript S url (lit "ko") log = (inr txt, log1) ->
        generate_shorts_script S txt key tone log1 = (inr script, log2) ->
        response_of S script = inl e ->
        fails_with (exn_str e) log2)
  (* the named failures *)
  /\ (get_video_id url = None ->
        fails_with (msg_download_failed ++ msg_invalid_url) log)
  /\ (forall vid e1 e2 e3, get_video_id url = Some vid ->
        let log1 := log ++ [Fetch vid (Some [lit "ko"])] in
        let log2 := log1 ++ [Fetch vid (Some [lit "en"])] in
        yt_fetch S log vid (Some [lit "ko"]) = inl e1 ->
        yt_fetch S log1 vid (Some [lit "en"]) = inl e2 ->
        yt_fetch S log2 vid None = inl e3 ->
        fails_with (msg_download_failed ++ exn_str e3) (log2 ++ [Fetch vid None]))
  /\ (forall txt log1,
        download_transcript S url (lit "ko") log = (inr txt, log1) ->
        key = [] ->
        fails_with (msg_script_failed ++ msg_key_required) log1)
  /\ (forall txt log1 e,
        download_transcript S url (lit "ko") log = (inr txt, log1) ->
        falsy key = false ->
        llm_invoke S log1 (lit "gpt-4o-mini") key 0.3%float (prompt_of txt tone) = inl e ->
        is_json_decode_error e = false ->
        fails_with (msg_script_failed ++ exn_str e) (log1 ++ [llm_call txt key tone]))
  /\ (forall txt log1 reply content msg,
        download_transcript S url (lit "ko") log = (inr txt, log1) ->
        falsy key = false ->
        llm_invoke S log1 (lit "gpt-4o-mini") key 0.3%float (prompt_of txt tone) = inr reply ->
        extract_json reply = inr content ->
        json_loads S content = inl msg ->
        fails_with (msg_json_failed ++ msg ++ msg_response_content ++ content)
                   (log1 ++ [llm_call txt key tone]))
  (* the endpoint *)
  /\ (forall b, parse_body b = Some request ->
        (exists r, fst (post_summarize S b log) = Http200 r)
        \/ (exists text, fst (post_summarize S b log) = HttpError 500 text))
  (* a body without a required field never reaches the handler *)
  /\ (forall b, body_api_key b = None \/ body_video_url b = None ->
        post_summarize S b log = (HttpUnprocessable, log)).
Proof.
  cbv zeta.
  assert (Hstage1 : forall e log1,
             download_transcript S (video_url request) (lit "ko") log = (inl e, log1) ->
             generate_shorts S request log = (inl (mkHTTPException 500 (exn_str e)), log1)).
  { intros e log1 H. now rewrite generate_shorts_stages, H. }
  assert (Hstage2 : forall txt log1 e log2,
             download_transcript S (video_url request) (lit "ko") log = (inr txt, log1) ->
             generate_shorts_script S txt (api_key request) (style request) log1
             = (inl e, log2) ->
             generate_shorts S request log = (inl (mkHTTPException 500 (exn_str e)), log2)).
  { intros txt log1 e log2 H1 H2. now rewrite generate_shorts_stages, H1, H2. }
  assert (Hall : forall h log', generate_shorts S request log = (inl h, log') ->
                                status_code h = 500%Z).
  { intros h log'. rewrite generate_shorts_stages.
    destruct (download_transcript S _ _ log) as [[e|txt] log1].
    - now intros [= <- _].
    - destruct (generate_shorts_script S txt _ _ log1) as [[e|script] log2].
      + now intros [= <- _].
      + destruct (response_of S script); [now intros [= <- _]|discriminate]. }
  repeat split.
  - exact Hall.
  - exact Hstage1.
  - exact Hstage2.
  - intros txt log1 script log2 e H1 H2 H3.
    now rewrite generate_shorts_stages, H1, H2, H3.
  - intros Hid.
    change (msg_download_failed ++ msg_invalid_url)
      with (exn_str (download_failed (mkExn ValueError msg_invalid_url))).
    apply Hstage1.
    now rewrite (@download_transcript_no_id S _ (lit "ko") log Hid).
  - intros vid e1 e2 e3 Hid H1 H2 H3.
    change (msg_download_failed ++ exn_str e3) with (exn_str (download_failed e3)).
    apply Hstage1.
    rewrite (@download_transcript_cases S _ (lit "ko") vid log Hid). cbv zeta.
    unfold attempt1, attempt2, attempt3. now rewrite H1, H2, H3.
  - intros txt log1 H1 Hk.
    change (msg_script_failed ++ msg_key_required)
      with (exn_str (script_failed (mkExn ValueError msg_key_required))).
    apply (Hstage2 txt log1); [exact H1|].
    rewrite Hk. apply generate_shorts_script_no_key.
  - intros txt log1 e H1 Hk H2 Hj.
    change (msg_script_failed ++ exn_str e) with (exn_str (script_failed e)).
    apply (Hstage2 txt log1); [exact H1|].
    rewrite generate_shorts_script_cases by exact Hk. cbv zeta.
    now rewrite H2, Hj.
  - intros txt log1 reply content msg H1 Hk H2 H3 H4.
    change (msg_json_failed ++ msg ++ msg_response_content ++ content)
      with (exn_str (json_failed msg content)).
    apply (Hstage2 txt log1); [exact H1|].
    rewrite generate_shorts_script_cases by exact Hk. cbv zeta.
    now rewrite H2, H3, H4.
  - intros b Hb. unfold post_summarize. rewrite Hb.
    destruct (generate_shorts S request log) as [[h|r] log'] eqn:E.
    + right. exists (detail h). simpl. now rewrite (Hall h log' eq_refl).
    + left. now exists r.
  - intros b [Hb|Hb]; unfold post_summarize, parse_body; rewrite Hb;
      [now destruct (body_video_url b)|reflexivity].
Qed.

Lemma generate_shorts_failures_uniform_witness :
  generate_shorts Stub.no_tracks (mkVideoRequest (lit "not a video") (lit "sk-test") default_style) []
  = (inl (mkHTTPException 500 (msg_download_failed ++ msg_invalid_url)), [])
  /\ generate_shorts Stub.no_tracks (mkVideoRequest Stub.short_url (lit "sk-test") default_style) []
     = (inl (mkHTTPException 500 (msg_download_failed ++ lit "no transcript found")),
        [Fetch Stub.short_id (Some [lit "ko"]);
         Fetch Stub.short_id (Some [lit "en"]);
         Fetch Stub.short_id None])
  /\ post_summarize Stub.no_tracks (mkBody (Some Stub.short_url) None None) []
     = (HttpUnprocessable, []).
Proof.
  split; [|split].
  - destruct (generate_shorts_failures_uniform Stub.no_tracks
                (mkVideoRequest (lit "not a video") (lit "sk-test") default_style) [])
      as (_ & _ & _ & _ & H & _).
    apply H. vm_compute. reflexivity.
  - destruct (generate_shorts_failures_uniform Stub.no_tracks
                (mkVideoRequest Stub.short_url (lit "sk-test") default_style) [])
      as (_ & _ & _ & _ & _ & H & _).
    apply (H Stub.short_id Stub.no_track Stub.no_track Stub.no_track);
      vm_compute; reflexivity.
  - destruct (generate_shorts_failures_uniform Stub.no_tracks
                (mkVideoRequest Stub.short_url (lit "sk-test") default_style) [])
      as (_ & _ & _ & _ & _ & _ & _ & _ & _ & _ & H).
    apply H. now left.
Defined.

(** C8, as stated, fails in two places.  A body with no [api_key] is not
    answered 500: the framework answers it before the handler runs.  And
    when the model call itself raises a [JSONDecodeError], the 500 response
    does not carry that failure's text but the text of the
    [UnboundLocalError] raised while handling it. *)
Lemma missing_key_is_not_a_500 :
  post_summarize Stub.all_tracks (mkBody (Some Stub.short_url) None None) []
  = (HttpUnprocessable, [])
  /\ generate_shorts Stub.garbled
       (mkVideoRequest Stub.short_url (lit "sk-test") default_style) []
     = (inl (mkHTTPException 500 msg_unbound_content),
        [Fetch Stub.short_id (Some [lit "ko"]);
         llm_call (flat_text Stub.lines) (lit "sk-test") default_style])
  /\ str_eqb msg_unbound_content (exn_str Stub.undecodable) = false.
Proof. vm_compute. repeat split. Qed.

(** C5.  When the model's reply parses as JSON and the value lacks one of
    the four fields the handler reads (title, subtitles, narration,
    visual_suggestions), the request fails with the 500 response: no
    response model is returned.  For an object that has the first two fields
    and no narration, the detail is the text of the [KeyError],
    ['narration']. *)
Theorem missing_field_fails
  (S : Services) (request : VideoRequest) (log log1 log2 : list call)
  (transcript_text : str) (script : pyvalue) :
  download_transcript S (video_url request) (lit "ko") log = (inr transcript_text, log1) ->
  generate_shorts_script S transcript_text (api_key request) (style request) log1
  = (inr script, log2) ->
  forallb (has_field script) required_fields = false ->
  (exists e, generate_shorts S request log = (inl (mkHTTPException 500 (exn_str e)), log2))
  /\ (forall items, script = PyDict items ->
        dict_get items (lit "title") <> None ->
        dict_get items (lit "subtitles") <> None ->
        dict_get items (lit "narration") = None ->
        generate_shorts S request log
        = (inl (mkHTTPException 500 (lit "'narration'")), log2)).
Proof.
  intros H1 H2 Hmiss. split.
  - destruct (response_of_missing S script Hmiss) as [e He].
    exists e. now rewrite generate_shorts_stages, H1, H2, He.
  - intros items -> Ht Hs Hn.
    rewrite generate_shorts_stages, H1, H2.
    now rewrite (@response_of_no_narration S items Ht Hs Hn).
Qed.

Lemma missing_field_fails_witness :
  generate_shorts Stub.all_tracks (mkVideoRequest Stub.short_url (lit "sk-test") default_style) []
  = (inl (mkHTTPException 500 (lit "'narration'")),
     [Fetch Stub.short_id (Some [lit "ko"]);
      llm_call (flat_text Stub.lines) (lit "sk-test") default_style]).
Proof.
  assert (H1 : download_transcript Stub.all_tracks Stub.short_url (lit "ko") []
               = (inr (flat_text Stub.lines), [Fetch Stub.short_id (Some [lit "ko"])]))
    by (vm_compute; reflexivity).
  assert (H2 : generate_shorts_script Stub.all_tracks (flat_text Stub.lines)
                 (lit "sk-test") default_style [Fetch Stub.short_id (Some [lit "ko"])]
               = (inr Stub.no_narration,
                  [Fetch Stub.short_id (Some [lit "ko"]);
                   llm_call (flat_text Stub.lines) (lit "sk-test") default_style]))
    by (vm_compute; reflexivity).
  destruct (missing_field_fails Stub.all_tracks
              (mkVideoRequest Stub.short_url (lit "sk-test") default_style)
              [] _ _ _ _ H1 H2) as (_ & H); [vm_compute; reflexivity|].
  apply (H _ eq_refl); vm_compute; [discriminate|discriminate|reflexivity].
Defined.

(* ===================================================================== *)
(** * Properties of the identifier extractor *)
(* ===================================================================== *)

(** The extractor on the usual inputs. *)
Example get_video_id_watch_url :
  get_video_id (lit "https://www.youtube.com/watch?v=dQw4w9WgXcQ&t=10s")
  = Some (lit "dQw4w9WgXcQ").
Proof. vm_compute. reflexivity. Qed.

Example get_video_id_short_url :
  get_video_id (lit "https://youtu.be/abc12345678") = Some (lit "abc12345678").
Proof. vm_compute. reflexivity. Qed.

Example get_video_id_not_a_url : get_video_id (lit "hello world") = None.
Proof. vm_compute. reflexivity. Qed.

(** [$] matches before a final newline: pattern 3 takes a token followed by
    one. *)
Example get_video_id_final_newline :
  get_video_id (lit "abc12345678" ++ [NL]) = Some (lit "abc12345678").
Proof. vm_compute. reflexivity. Qed.

(** C2 (as the code has it).  For every 11-character token [t] of the
    alphabet [0-9A-Za-z_-], whatever follows it: the extractor returns [t]
    from a URL that holds [watch?v=t] when pattern 1 finds nothing in the
    text before that [v=], from a URL that holds [embed/t] when pattern 1
    finds nothing in the text before that [/], and from the bare string [t].
    (The search is leftmost: an earlier [v=] or [/] followed by 11 characters
    of the alphabet wins.) *)
Theorem get_video_id_supported_shapes (t pre post : str) :
  token t ->
  (search pattern1 (pre ++ lit "watch?") = None ->
     get_video_id (pre ++ lit "watch?v=" ++ t ++ post) = Some t)
  /\ (search pattern1 (pre ++ lit "embed") = None ->
     get_video_id (pre ++ lit "embed/" ++ t ++ post) = Some t)
  /\ get_video_id t = Some t.
Proof.
  intros Ht. repeat split.
  - now apply get_video_id_watch_shape.
  - now apply get_video_id_embed_shape.
  - now apply get_video_id_bare_shape.
Qed.

Lemma get_video_id_supported_shapes_witness :
  get_video_id (lit "https://www.youtube.com/" ++ lit "watch?v=" ++ lit "dQw4w9WgXcQ" ++ lit "&t=10s")
  = Some (lit "dQw4w9WgXcQ")
  /\ get_video_id (lit "https://www.youtube.com/" ++ lit "embed/" ++ lit "dQw4w9WgXcQ" ++ [])
     = Some (lit "dQw4w9WgXcQ")
  /\ get_video_id (lit "dQw4w9WgXcQ") = Some (lit "dQw4w9WgXcQ").
Proof.
  assert (Ht : token (lit "dQw4w9WgXcQ")) by (split; reflexivity).
  split; [|split].
  - destruct (get_video_id_supported_shapes (lit "dQw4w9WgXcQ")
                (lit "https://www.youtube.com/") (lit "&t=10s") Ht) as (H & _ & _).
    apply H. vm_compute. reflexivity.
  - destruct (get_video_id_supported_shapes (lit "dQw4w9WgXcQ")
                (lit "https://www.youtube.com/") [] Ht) as (_ & H & _).
    apply H. vm_compute. reflexivity.
  - destruct (get_video_id_supported_shapes (lit "dQw4w9WgXcQ") [] [] Ht) as (_ & _ & H).
    exact H.
Defined.

(** C2, as stated, fails: these URLs hold [watch?v=dQw4w9WgXcQ] and
    [embed/dQw4w9WgXcQ], and the extractor returns the 11 characters that
    follow an earlier [/]. *)
Lemma get_video_id_earlier_slash :
  get_video_id (lit "https://youtubekids.com/watch?v=dQw4w9WgXcQ")
  = Some (lit "youtubekids")
  /\ get_video_id (lit "https://youtubekids.com/embed/dQw4w9WgXcQ")
     = Some (lit "youtubekids")
  /\ get_video_id
       (lit "https://web.archive.org/web/20200101000000/https://www.youtube.com/watch?v=dQw4w9WgXcQ")
     = Some (lit "20200101000").
Proof. vm_compute. repeat split. Qed.

(** C7.  For every input in which none of the three patterns reaches an
    11-character token of the alphabet, the extractor returns [None]; it is
    a total function, so it returns on every input. *)
Theorem get_video_id_no_token (url : str) :
  (forall t, ~ reachable url t) -> get_video_id url = None.
Proof.
  intros H. destruct (get_video_id url) as [t|] eqn:E; [|reflexivity].
  exfalso. apply (H t). now apply get_video_id_some_reachable.
Qed.

Lemma get_video_id_no_token_witness : get_video_id (lit "hello world") = None.
Proof.
  apply get_video_id_no_token. intros t Ht.
  apply reachable_get_video_id in Ht. apply Ht. vm_compute. reflexivity.
Defined.

(** C10 (as the code has it).  The second pattern is redundant: whenever it
    is found in an input, the first pattern is found there too (at the [/]
    of [embed/] or earlier), so the second pattern is never consulted with a
    chance to match, and the extractor without it returns the same result on
    every input. *)
Theorem embed_pattern_redundant :
  (forall url, search pattern2 url <> None -> search pattern1 url <> None)
  /\ (forall url, get_video_id_without_embed url = get_video_id url).
Proof.
  split.
  - intros url H2 H1. apply H2. apply search_pattern1_none in H1.
    apply scan_hit2_hit1 in H1. pose proof (search_pattern2 url) as Hs.
    now rewrite H1 in Hs.
  - intros url. rewrite get_video_id_without_embed_spec, get_video_id_spec.
    unfold video_id_of. destruct (scan hit1 url) eqn:E; [reflexivity|].
    now rewrite (scan_hit2_hit1 _ E).
Qed.

(** C10, as stated, fails on the captured group: here the second pattern
    captures the identifier after [embed/], and the first pattern, which
    decides, captures the host name. *)
Lemma embed_capture_differs :
  option_map group1 (search pattern2 (lit "https://youtubekids.com/embed/dQw4w9WgXcQ"))
  = Some (Some (lit "dQw4w9WgXcQ"))
  /\ option_map group1 (search pattern1 (lit "https://youtubekids.com/embed/dQw4w9WgXcQ"))
     = Some (Some (lit "youtubekids")).
Proof. vm_compute. split; reflexivity. Qed.

(* ===================================================================== *)
(** * Properties of the script generator *)
(* ===================================================================== *)

(** C4 fails on the code: for a fenced reply whose JSON text holds three
    backticks in a row, what reaches [json.loads] is the text up to that
    run (an unterminated string), not the text between the fences that the
    unwrapped reply hands over. *)
Theorem extract_json_cuts_at_inner_fence :
  extract_json (fenced (lit "json") json_with_backticks) = inr json_cut_short
  /\ extract_json json_with_backticks = inr json_with_backticks
  /\ str_eqb json_cut_short json_with_backticks = false.
Proof. vm_compute. repeat split. Qed.

(** For a fenced reply whose text holds no run of three backticks, with the
    [json] tag or without, the text handed to [json.loads] is the one the
    unwrapped reply hands over, so the generator returns the same result for
    both when the model answers alike. *)
Theorem fenced_reply_parses_alike
  (S : Services) (tag text transcript_text key tone : str) (log : list call) :
  tag = [] \/ tag = lit "json" ->
  contains FENCE text = false ->
  extract_json (fenced tag text) = extract_json text
  /\ (forall S', yt_fetch S' = yt_fetch S -> json_loads S' = json_loads S ->
        llm_invoke S log (lit "gpt-4o-mini") key 0.3%float (prompt_of transcript_text tone)
        = inr (fenced tag text) ->
        llm_invoke S' log (lit "gpt-4o-mini") key 0.3%float (prompt_of transcript_text tone)
        = inr text ->
        generate_shorts_script S transcript_text key tone log
        = generate_shorts_script S' transcript_text key tone log).
Proof.
  intros Htag Hc.
  assert (He : extract_json (fenced tag text) = extract_json text).
  { rewrite (@extract_json_fenced tag text Htag Hc).
    symmetry. apply extract_json_plain. now apply strip_not_fenced. }
  split; [exact He|].
  intros S' _ Hj H1 H2. destruct (falsy key) eqn:Hk.
  - destruct key; [reflexivity|discriminate].
  - rewrite !generate_shorts_script_cases by exact Hk. cbv zeta.
    now rewrite H1, H2, He, Hj.
Qed.

Lemma fenced_reply_parses_alike_witness :
  extract_json (fenced (lit "json") (lit "{}")) = extract_json (lit "{}").
Proof.
  destruct (fenced_reply_parses_alike Stub.all_tracks (lit "json") (lit "{}")
              [] (lit "sk-test") default_style [] (or_intror eq_refl) eq_refl)
    as [H _].
  exact H.
Defined.

(* ===================================================================== *)
(** * More on the identifier extractor *)
(* ===================================================================== *)

Section ExtractorMore.

Lemma token_at_length (s t : str) : token_at s = Some t -> 11 <= length s.
Proof.
  intros H. apply token_at_some_iff in H. destruct H as (post & -> & Hl & _).
  rewrite length_app. lia.
Qed.

Lemma reachable_occurs (url t : str) :
  reachable url t -> exists pre post, url = pre ++ t ++ post.
Proof.
  intros [_ [(pre & post & [->| ->])|[(pre & post & ->)|[->| ->]]]].
  - exists (pre ++ lit "v="), post. now rewrite <- app_assoc.
  - exists (pre ++ lit "/"), post. now rewrite <- app_assoc.
  - exists (pre ++ lit "embed/"), post. now rewrite <- app_assoc.
  - exists [], []. now rewrite app_nil_r.
  - now exists [], [NL].
Qed.

Lemma hit3_id_text_length (s : str) :
  forallb is_id_char s = true -> length s <> 11 -> hit3 s = None.
Proof.
  intros Hf Hl. unfold hit3.
  destruct (token_at s) as [t|] eqn:E; [|reflexivity].
  pose proof (token_at_length _ _ E) as Hlen.
  destruct (skipn 11 s) as [|x [|y r]] eqn:Es; [| |reflexivity].
  - exfalso. apply Hl.
    assert (length (skipn 11 s) = 0) as H0 by now rewrite Es.
    rewrite length_skipn in H0. lia.
  - assert (In x s) as Hin.
    { rewrite <- (firstn_skipn 11 s), Es. apply in_or_app. right. now left. }
    rewrite forallb_forall in Hf. specialize (Hf x Hin).
    destruct (x =? NL)%N eqn:Ex; [|reflexivity].
    apply N.eqb_eq in Ex. subst x. discriminate.
Qed.

Lemma hit1_query (t post : str) (c : char) :
  token t -> is_id_char c = false -> c <> 61%N ->
  scan hit1 (c :: lit "v=" ++ t ++ post) = Some t.
Proof.
  intros Ht Hc Heq. cbn [scan].
  assert (hit1 (c :: lit "v=" ++ t ++ post) = None) as ->.
  { destruct (hit1 (c :: lit "v=" ++ t ++ post)) as [y|] eqn:E; [|reflexivity].
    exfalso. unfold hit1 in E.
    destruct (after (lit "v=") (c :: lit "v=" ++ t ++ post)) as [z|] eqn:Ev.
    - apply after_some_iff in Ev. destruct Ev as (p & Hp & _).
      injection Hp as -> _. discriminate.
    - apply after_some_iff in E. destruct E as (p & Hp & [Hl Hf]).
      injection Hp as _ Hp.
      destruct y as [|a [|b y]]; try discriminate.
      injection Hp as <- <- _. discriminate. }
  apply scan_hit. now apply hit1_v.
Qed.

End ExtractorMore.

(** X2.  Whatever the extractor returns is an 11-character token of the
    alphabet [0-9A-Za-z_-] that stands in the input; so it never returns the
    empty string, and the [not video_id] test of the fetcher fails only on
    [None]. *)
Theorem get_video_id_returns_token (url t : str) :
  get_video_id url = Some t ->
  token t /\ (exists pre post, url = pre ++ t ++ post) /\ falsy t = false.
Proof.
  intros H. pose proof (@get_video_id_some_reachable url t H) as Hr.
  repeat split.
  - apply Hr.
  - apply Hr.
  - now apply reachable_occurs.
  - now apply (get_video_id_truthy url).
Qed.

Lemma get_video_id_returns_token_witness :
  token (lit "abc12345678")
  /\ (exists pre post, lit "https://youtu.be/abc12345678" = pre ++ lit "abc12345678" ++ post)
  /\ falsy (lit "abc12345678") = false.
Proof.
  apply (get_video_id_returns_token (lit "https://youtu.be/abc12345678")).
  vm_compute. reflexivity.
Defined.

(** X3.  The extractor is idempotent: what it returns for an input, it
    returns again when given that result (the third pattern takes a bare
    identifier). *)
Theorem get_video_id_idempotent (url t : str) :
  get_video_id url = Some t -> get_video_id t = Some t.
Proof.
  intros H. apply get_video_id_bare_shape.
  now apply (@get_video_id_some_reachable url t).
Qed.

Lemma get_video_id_idempotent_witness :
  get_video_id (lit "dQw4w9WgXcQ") = Some (lit "dQw4w9WgXcQ").
Proof.
  apply (get_video_id_idempotent (lit "https://www.youtube.com/watch?v=dQw4w9WgXcQ&t=10s")).
  vm_compute. reflexivity.
Defined.

(** X4.  Whenever one of the three patterns reaches a token in the input,
    the extractor returns an identifier (the one the leftmost match of the
    first successful pattern captures, which need not be that token). *)
Theorem get_video_id_finds_reachable (url t : str) :
  reachable url t -> exists t', get_video_id url = Some t' /\ token t'.
Proof.
  intros H. destruct (get_video_id url) as [t'|] eqn:E.
  - exists t'. split; [reflexivity|].
    now apply (@get_video_id_some_reachable url t').
  - exfalso. now apply (@reachable_get_video_id url t H).
Qed.

Lemma get_video_id_finds_reachable_witness :
  exists t', get_video_id (lit "https://youtubekids.com/embed/dQw4w9WgXcQ") = Some t'
             /\ token t'.
Proof.
  apply (get_video_id_finds_reachable _ (lit "dQw4w9WgXcQ")).
  split; [split; reflexivity|].
  right. left. exists (lit "https://youtubekids.com/"), []. reflexivity.
Defined.

(** X5.  An input shorter than 11 characters has no identifier: the
    extractor returns [None] (the empty input included). *)
Theorem get_video_id_short_input (url : str) :
  length url < 11 -> get_video_id url = None.
Proof.
  intros Hl. destruct (get_video_id url) as [t|] eqn:E; [|reflexivity].
  apply get_video_id_some_reachable in E.
  destruct (reachable_occurs _ _ E) as (pre & post & ->).
  destruct E as [[Ht _] _]. rewrite !length_app in Hl. lia.
Qed.

Lemma get_video_id_short_input_witness : get_video_id (lit "youtu.be/x") = None.
Proof. apply get_video_id_short_input. vm_compute. lia. Defined.

(** X6.  A bare string of alphabet characters is taken as an identifier
    only when it has exactly 11 characters: a shorter or a longer one gives
    [None] (it is not cut to 11). *)
Theorem get_video_id_bare_wrong_length (s : str) :
  forallb is_id_char s = true -> length s <> 11 -> get_video_id s = None.
Proof.
  intros Hf Hl. rewrite get_video_id_spec. unfold video_id_of.
  rewrite (@scan_hit1_id_text s Hf), (@scan_hit2_id_text s Hf).
  now apply hit3_id_text_length.
Qed.

Lemma get_video_id_bare_wrong_length_witness :
  get_video_id (lit "dQw4w9WgXcQ0") = None.
Proof.
  apply get_video_id_bare_wrong_length; [reflexivity|]. vm_compute. lia.
Defined.

(** X7.  For every token [t], whatever follows it: the extractor returns
    [t] from an input that holds [/t] when pattern 1 finds nothing in the
    text before that [/] (the short and path forms, [youtu.be/t],
    [.../shorts/t]), and from an input that holds [v=t] right after a
    character that is neither of the alphabet nor [=] (as in [?v=t],
    [&v=t]) when pattern 1 finds nothing in the text before that
    character. *)
Theorem get_video_id_path_and_query (t pre post : str) (c : char) :
  token t -> search pattern1 pre = None ->
  get_video_id (pre ++ lit "/" ++ t ++ post) = Some t
  /\ (is_id_char c = false -> c <> 61%N ->
      get_video_id (pre ++ c :: lit "v=" ++ t ++ post) = Some t).
Proof.
  intros Ht Hs. apply search_pattern1_none in Hs. split.
  - rewrite get_video_id_spec. unfold video_id_of.
    change (pre ++ lit "/" ++ t ++ post) with (pre ++ 47%N :: (t ++ post)).
    rewrite scan_hit1_skip; [|exact Hs|discriminate|reflexivity].
    change (scan hit1 (47%N :: t ++ post)) with (scan hit1 (lit "/" ++ t ++ post)).
    now rewrite (@scan_hit hit1 _ _ (@hit1_slash t post Ht)).
  - intros Hc Heq. rewrite get_video_id_spec. unfold video_id_of.
    rewrite scan_hit1_skip; [|exact Hs|exact Heq|exact Hc].
    now rewrite hit1_query.
Qed.

Lemma get_video_id_path_and_query_witness :
  get_video_id (lit "https://www.youtube.com/shorts" ++ lit "/" ++ lit "dQw4w9WgXcQ" ++ lit "?feature=share")
  = Some (lit "dQw4w9WgXcQ")
  /\ get_video_id (lit "https://www.youtube.com/watch?feature=share" ++ 38%N :: lit "v=" ++ lit "dQw4w9WgXcQ" ++ [])
     = Some (lit "dQw4w9WgXcQ").
Proof.
  assert (Ht : token (lit "dQw4w9WgXcQ")) by (split; reflexivity).
  split.
  - assert (Hs : search pattern1 (lit "https://www.youtube.com/shorts") = None)
      by (vm_compute; reflexivity).
    exact (proj1 (get_video_id_path_and_query (lit "dQw4w9WgXcQ")
                    (lit "https://www.youtube.com/shorts") (lit "?feature=share")
                    38%N Ht Hs)).
  - assert (Hs : search pattern1 (lit "https://www.youtube.com/watch?feature=share") = None)
      by (vm_compute; reflexivity).
    apply (proj2 (get_video_id_path_and_query (lit "dQw4w9WgXcQ")
                    (lit "https://www.youtube.com/watch?feature=share") []
                    38%N Ht Hs)); [reflexivity|discriminate].
Defined.

(* ===================================================================== *)
(** * More on the transcript fetcher and the handler *)
(* ===================================================================== *)

(** X8.  The fetcher only ever adds fetches to the log, all of them for the
    identifier it extracted: none when it extracted none, between one and
    three otherwise. *)
Theorem download_transcript_calls
  (S : Services) (url language : str) (log : list call) :
  exists calls,
    snd (download_transcript S url language log) = log ++ calls
    /\ match get_video_id url with
       | None => calls = []
       | Some vid =>
         1 <= length calls <= 3
         /\ forall c, In c calls -> exists languages, c = Fetch vid languages
       end.
Proof.
  destruct (get_video_id url) as [vid|] eqn:Hid.
  - rewrite (@download_transcript_cases S url language vid log Hid). cbv zeta.
    unfold attempt1, attempt2, attempt3.
    assert (forall calls : list call,
              Forall (fun c => exists languages, c = Fetch vid languages) calls ->
              forall c, In c calls -> exists languages, c = Fetch vid languages) as Hin.
    { intros calls Hall. now apply Forall_forall. }
    destruct (yt_fetch S log vid (Some [language])).
    + destruct (yt_fetch S _ vid (Some [lit "en"])).
      * exists [Fetch vid (Some [language]); Fetch vid (Some [lit "en"]); Fetch vid None].
        split; [destruct (yt_fetch S _ vid None); simpl; now rewrite <- !app_assoc|].
        split; [simpl; lia|]. apply Hin. repeat constructor; eexists; reflexivity.
      * exists [Fetch vid (Some [language]); Fetch vid (Some [lit "en"])].
        split; [simpl; now rewrite <- !app_assoc|].
        split; [simpl; lia|]. apply Hin. repeat constructor; eexists; reflexivity.
    + exists [Fetch vid (Some [language])].
      split; [reflexivity|]. split; [simpl; lia|].
      apply Hin. repeat constructor; eexists; reflexivity.
  - rewrite (@download_transcript_no_id S url language log Hid).
    exists []. split; [simpl; now rewrite app_nil_r|reflexivity].
Qed.

(** X9.  In one request the handler calls the transcript provider at most
    three times and the model at most once, and the model last: the model
    is called only after a transcript was returned and when the key is not
    empty, with the prompt built from that transcript.  The log it was
    given is kept as it is. *)
Theorem generate_shorts_call_order
  (S : Services) (request : VideoRequest) (log : list call) :
  exists fetches invokes,
    snd (generate_shorts S request log) = log ++ fetches ++ invokes
    /\ forallb is_fetch fetches = true /\ length fetches <= 3
    /\ (invokes = []
        \/ exists transcript_text,
             fst (download_transcript S (video_url request) (lit "ko") log)
             = inr transcript_text
             /\ falsy (api_key request) = false
             /\ invokes = [llm_call transcript_text (api_key request) (style request)]).
Proof.
  destruct (download_transcript_log S (video_url request) (lit "ko") log)
    as (calls & Hlog & Hf & Hl).
  exists calls. rewrite generate_shorts_stages.
  destruct (download_transcript S (video_url request) (lit "ko") log)
    as [[e|txt] log1] eqn:Hd; cbn [snd fst] in *.
  - exists []. rewrite app_nil_r. repeat split; auto.
  - pose proof (generate_shorts_script_log S txt (api_key request) (style request) log1)
      as Hs.
    assert (snd (match generate_shorts_script S txt (api_key request) (style request) log1
                 with
                 | (inl e, log2) => (inl (http500 e), log2)
                 | (inr script, log2) =>
                   match response_of S script with
                   | inl e => (inl (http500 e), log2)
                   | inr r => (inr r, log2)
                   end
                 end)
            = snd (generate_shorts_script S txt (api_key request) (style request) log1))
      as ->.
    { destruct (generate_shorts_script S txt _ _ log1) as [[e|script] log2];
        [reflexivity|]. now destruct (response_of S script). }
    rewrite Hs, Hlog. destruct (falsy (api_key request)) eqn:Hk.
    + exists []. rewrite app_nil_r. repeat split; auto.
    + exists [llm_call txt (api_key request) (style request)].
      rewrite app_assoc. repeat split; auto. right. now exists txt.
Qed.

(** X10.  When the script is an object that holds the four keys, the
    handler hands the four values under them, in the order title,
    subtitles, narration, visual_suggestions, to the response model and
    returns what it builds; the other keys of the object and the order of
    its keys play no part. *)
Theorem generate_shorts_success
  (S : Services) (request : VideoRequest) (log log1 log2 : list call)
  (transcript_text : str) (items : list (str * pyvalue))
  (a b c d : pyvalue) (r : ShortsScriptResponse) :
  download_transcript S (video_url request) (lit "ko") log = (inr transcript_text, log1) ->
  generate_shorts_script S transcript_text (api_key request) (style request) log1
  = (inr (PyDict items), log2) ->
  dict_get items (lit "title") = Some a ->
  dict_get items (lit "subtitles") = Some b ->
  dict_get items (lit "narration") = Some c ->
  dict_get items (lit "visual_suggestions") = Some d ->
  new_response S a b c d = inr r ->
  generate_shorts S request log = (inr r, log2).
Proof.
  intros H1 H2 Ha Hb Hc Hd Hr.
  rewrite generate_shorts_stages, H1, H2. unfold response_of, getitem.
  now rewrite Ha, Hb, Hc, Hd, Hr.
Qed.

Lemma generate_shorts_success_witness :
  generate_shorts Stub.complete
    (mkVideoRequest Stub.short_url (lit "sk-test") default_style) []
  = (inr (mkShortsScriptResponse (lit "T") (lit "S") (lit "N") (lit "V")),
     [Fetch Stub.short_id (Some [lit "ko"]);
      llm_call (flat_text Stub.lines) (lit "sk-test") default_style]).
Proof.
  apply (generate_shorts_success Stub.complete
           (mkVideoRequest Stub.short_url (lit "sk-test") default_style)
           [] [Fetch Stub.short_id (Some [lit "ko"])] _
           (flat_text Stub.lines)
           [ (lit "hashtags", PyList [PyStr (lit "#a")]);
             (lit "narration", PyStr (lit "N"));
             (lit "title", PyStr (lit "T"));
             (lit "visual_suggestions", PyStr (lit "V"));
             (lit "subtitles", PyStr (lit "S")) ]
           (PyStr (lit "T")) (PyStr (lit "S")) (PyStr (lit "N")) (PyStr (lit "V")));
    vm_compute; reflexivity.
Defined.

(** X11.  When the script is an object that lacks some of the four keys,
    the detail of the 500 response names the first missing one, in the
    order title, subtitles, narration, visual_suggestions, between single
    quotes (the text of the [KeyError]); the later ones are not looked
    at. *)
Theorem generate_shorts_first_missing_key
  (S : Services) (request : VideoRequest) (log log1 log2 : list call)
  (transcript_text : str) (items : list (str * pyvalue)) (key : str) :
  download_transcript S (video_url request) (lit "ko") log = (inr transcript_text, log1) ->
  generate_shorts_script S transcript_text (api_key request) (style request) log1
  = (inr (PyDict items), log2) ->
  find (fun k => negb (has_field (PyDict items) k)) required_fields = Some key ->
  generate_shorts S request log
  = (inl (mkHTTPException 500 (lit "'" ++ key ++ lit "'")), log2).
Proof.
  intros H1 H2 Hfind.
  rewrite generate_shorts_stages, H1, H2.
  unfold required_fields, has_field, response_of in *. cbn [find] in Hfind.
  unfold getitem in *.
  destruct (dict_get items (lit "title")); cbn [negb] in Hfind;
    [|now injection Hfind as <-].
  destruct (dict_get items (lit "subtitles")); cbn [negb] in Hfind;
    [|now injection Hfind as <-].
  destruct (dict_get items (lit "narration")); cbn [negb] in Hfind;
    [|now injection Hfind as <-].
  destruct (dict_get items (lit "visual_suggestions")); cbn [negb] in Hfind;
    [discriminate|now injection Hfind as <-].
Qed.

Lemma generate_shorts_first_missing_key_witness :
  generate_shorts Stub.all_tracks
    (mkVideoRequest Stub.short_url (lit "sk-test") default_style) []
  = (inl (mkHTTPException 500 (lit "'" ++ lit "narration" ++ lit "'")),
     [Fetch Stub.short_id (Some [lit "ko"]);
      llm_call (flat_text Stub.lines) (lit "sk-test") default_style]).
Proof.
  apply (generate_shorts_first_missing_key Stub.all_tracks
           (mkVideoRequest Stub.short_url (lit "sk-test") default_style)
           [] [Fetch Stub.short_id (Some [lit "ko"])] _
           (flat_text Stub.lines)
           [ (lit "title", PyStr (lit "T"));
             (lit "subtitles", PyStr (lit "S"));
             (lit "visual_suggestions", PyStr (lit "V")) ]);
    vm_compute; reflexivity.
Defined.

(** X12.  When the model's reply parses to a value that is no object (a
    list, a string, a number, a boolean, null), the first subscript raises
    a [TypeError] and the request fails with the 500 response whose detail
    is that error's text. *)
Theorem generate_shorts_script_not_object
  (S : Services) (request : VideoRequest) (log log1 log2 : list call)
  (transcript_text : str) (script : pyvalue) :
  download_transcript S (video_url request) (lit "ko") log = (inr transcript_text, log1) ->
  generate_shorts_script S transcript_text (api_key request) (style request) log1
  = (inr script, log2) ->
  (forall items, script <> PyDict items) ->
  exists e,
    getitem script (lit "title") = inl e
    /\ exn_class_of e = TypeError
    /\ generate_shorts S request log = (inl (mkHTTPException 500 (exn_str e)), log2).
Proof.
  intros H1 H2 Hno. rewrite generate_shorts_stages, H1, H2. unfold response_of.
  destruct script; try (eexists; repeat split; reflexivity).
  exfalso. now apply (Hno items).
Qed.

Lemma generate_shorts_script_not_object_witness :
  exists e,
    getitem (PyList []) (lit "title") = inl e
    /\ exn_class_of e = TypeError
    /\ generate_shorts Stub.listed
         (mkVideoRequest Stub.short_url (lit "sk-test") default_style) []
       = (inl (mkHTTPException 500 (exn_str e)),
          [Fetch Stub.short_id (Some [lit "ko"]);
           llm_call (flat_text Stub.lines) (lit "sk-test") default_style]).
Proof.
  apply (generate_shorts_script_not_object Stub.listed
           (mkVideoRequest Stub.short_url (lit "sk-test") default_style)
           [] [Fetch Stub.short_id (Some [lit "ko"])] _ (flat_text Stub.lines)).
  - vm_compute. reflexivity.
  - vm_compute. reflexivity.
  - intros items. discriminate.
Defined.

(** X13.  A transcript with no segment is no failure: the fetcher returns
    the empty text, and with a non-empty key the handler goes on to call
    the model with the prompt built from the empty text. *)
Theorem generate_shorts_empty_transcript
  (S : Services) (request : VideoRequest) (vid : str) (log : list call) :
  get_video_id (video_url request) = Some vid ->
  yt_fetch S log vid (Some [lit "ko"]) = inr [] ->
  falsy (api_key request) = false ->
  download_transcript S (video_url request) (lit "ko") log
  = (inr [], log ++ [Fetch vid (Some [lit "ko"])])
  /\ snd (generate_shorts S request log)
     = log ++ [Fetch vid (Some [lit "ko"]);
               llm_call [] (api_key request) (style request)].
Proof.
  intros Hid Hf Hk.
  assert (Hd : download_transcript S (video_url request) (lit "ko") log
               = (inr [], log ++ [Fetch vid (Some [lit "ko"])])).
  { rewrite (@download_transcript_cases S _ (lit "ko") vid log Hid). cbv zeta.
    now rewrite Hf. }
  split; [exact Hd|].
  rewrite generate_shorts_stages, Hd.
  pose proof (generate_shorts_script_log S [] (api_key request) (style request)
                (log ++ [Fetch vid (Some [lit "ko"])])) as Hs.
  rewrite Hk in Hs.
  destruct (generate_shorts_script S [] _ _ _) as [[e|script] log2];
    cbn [snd] in *.
  - rewrite Hs. now rewrite <- app_assoc.
  - destruct (response_of S script); cbn [snd]; rewrite Hs; now rewrite <- app_assoc.
Qed.

Lemma generate_shorts_empty_transcript_witness :
  download_transcript Stub.silent Stub.short_url (lit "ko") []
  = (inr [], [] ++ [Fetch Stub.short_id (Some [lit "ko"])])
  /\ snd (generate_shorts Stub.silent
            (mkVideoRequest Stub.short_url (lit "sk-test") default_style) [])
     = [] ++ [Fetch Stub.short_id (Some [lit "ko"]);
              llm_call [] (lit "sk-test") default_style].
Proof.
  assert (Hid : get_video_id Stub.short_url = Some Stub.short_id)
    by (vm_compute; reflexivity).
  pose proof (generate_shorts_empty_transcript Stub.silent
                (mkVideoRequest Stub.short_url (lit "sk-test") default_style)
                Stub.short_id [] Hid eq_refl eq_refl) as H.
  vm_compute in H. vm_compute. exact H.
Defined.

(* ===================================================================== *)
(** * More on the code fence *)
(* ===================================================================== *)

Section FenceMore.

Lemma lstrip_app_nonspace (a b : str) (c : char) :
  isspace c = false -> lstrip (a ++ c :: b) = lstrip a ++ c :: b.
Proof.
  intros Hc. induction a as [|x a IH]; simpl.
  - now rewrite Hc.
  - destruct (isspace x); [exact IH|reflexivity].
Qed.

Lemma lstrip_spaces_app (ws x : str) :
  forallb isspace ws = true -> lstrip (ws ++ x) = lstrip x.
Proof.
  induction ws as [|w ws IH]; simpl; [reflexivity|].
  intros H. apply andb_true_iff in H. destruct H as [-> H]. now apply IH.
Qed.

Lemma rstrip_after_nonspace (x r : str) (c : char) :
  isspace c = false -> rstrip (x ++ c :: r) = x ++ c :: rstrip r.
Proof.
  intros Hc. unfold rstrip.
  rewrite rev_app_distr. simpl rev. rewrite <- app_assoc. simpl app.
  rewrite lstrip_app_nonspace by exact Hc.
  rewrite rev_app_distr. simpl rev. rewrite rev_involutive.
  now rewrite <- app_assoc.
Qed.

Lemma lstrip_idem (s : str) : lstrip (lstrip s) = lstrip s.
Proof.
  induction s as [|c s IH]; [reflexivity|]. simpl.
  destruct (isspace c) eqn:Hc; [exact IH|]. simpl. now rewrite Hc.
Qed.

Lemma rstrip_idem (s : str) : rstrip (rstrip s) = rstrip s.
Proof. unfold rstrip. now rewrite rev_involutive, lstrip_idem. Qed.

Lemma lstrip_snoc (a : str) (c : char) :
  lstrip (a ++ [c])
  = match lstrip a with
    | [] => if isspace c then [] else [c]
    | _ :: _ => lstrip a ++ [c]
    end.
Proof.
  induction a as [|x a IH]; simpl.
  - now destruct (isspace c).
  - destruct (isspace x); [exact IH|reflexivity].
Qed.

Lemma rstrip_cons (c : char) (u : str) :
  rstrip (c :: u)
  = match rstrip u with
    | [] => if isspace c then [] else [c]
    | _ :: _ => c :: rstrip u
    end.
Proof.
  unfold rstrip. simpl rev. rewrite lstrip_snoc.
  destruct (lstrip (rev u)) as [|z l].
  - simpl. now destruct (isspace c).
  - remember (z :: l) as zl eqn:Hzl. rewrite rev_app_distr. simpl.
    destruct (rev zl) as [|y r] eqn:E; [|reflexivity].
    subst zl. simpl in E. now apply app_eq_nil in E.
Qed.

Lemma lstrip_rstrip (u : str) : lstrip (rstrip u) = rstrip (lstrip u).
Proof.
  induction u as [|c u IH]; [reflexivity|].
  rewrite rstrip_cons. simpl lstrip. destruct (isspace c) eqn:Hc.
  - destruct (rstrip u) as [|y r] eqn:E.
    + simpl. now rewrite <- IH.
    + simpl. rewrite Hc. exact IH.
  - rewrite rstrip_cons.
    destruct (rstrip u) as [|y r]; simpl; now rewrite Hc.
Qed.

Lemma strip_rstrip (u : str) : strip (rstrip u) = strip u.
Proof. unfold strip. now rewrite lstrip_rstrip, rstrip_idem. Qed.

Lemma strip_idem (s : str) : strip (strip s) = strip s.
Proof.
  unfold strip. now rewrite lstrip_rstrip, rstrip_idem, lstrip_idem.
Qed.

Lemma split_go_nonempty (sep : str) (s : str) : forall skip cur,
  split_go sep skip cur s <> [].
Proof.
  induction s as [|c s IH]; intros skip cur; simpl; [discriminate|].
  destruct skip; [|apply IH].
  destruct (startswith sep (c :: s)); [discriminate|apply IH].
Qed.

Lemma split_fence_second (s : str) :
  startswith FENCE s = true -> exists piece, nth_error (split FENCE s) 1 = Some piece.
Proof.
  intros H. apply startswith_inv in H. rewrite H. unfold split.
  change (split_go FENCE 0 [] (FENCE ++ skipn (length FENCE) s))
    with ([] :: split_go FENCE 0 [] (skipn (length FENCE) s)).
  pose proof (split_go_nonempty FENCE (skipn (length FENCE) s) 0 []) as Hne.
  destruct (split_go FENCE 0 [] (skipn (length FENCE) s)) as [|piece l];
    [congruence|]. now exists piece.
Qed.

Lemma contains_prefix (a b : str) :
  contains FENCE (a ++ b) = false -> contains FENCE a = false.
Proof.
  induction a as [|c a IH]; [reflexivity|]. simpl app. cbn [contains].
  intros H. apply orb_false_iff in H. destruct H as [H1 H2].
  rewrite (IH H2), orb_false_r.
  destruct (startswith FENCE (c :: a)) eqn:E; [|reflexivity].
  apply startswith_mono with (b := b) in E. simpl app in E. congruence.
Qed.

Lemma no_fence_start_plain (body : str) :
  contains FENCE body = false -> no_fence_start body [] = true.
Proof.
  induction body as [|c body IH]; [reflexivity|].
  cbn [contains no_fence_start]. intros H. apply orb_false_iff in H.
  destruct H as [H1 H2]. now rewrite app_nil_r, H1, IH.
Qed.

Lemma split_go_plain (body : str) : forall cur,
  no_fence_start body [] = true ->
  split_go FENCE 0 cur body = [rev cur ++ body].
Proof.
  induction body as [|c body IH]; intros cur H.
  - simpl. now rewrite app_nil_r.
  - cbn [no_fence_start] in H. apply andb_true_iff in H. destruct H as [H1 H2].
    apply negb_true_iff in H1. rewrite app_nil_r in H1.
    cbn [split_go]. rewrite H1, IH by exact H2. simpl rev.
    now rewrite <- app_assoc.
Qed.

Lemma no_fence_start_body (tag text rest : str) :
  tag = [] \/ tag = lit "json" ->
  contains FENCE text = false ->
  no_fence_start (tag ++ NL :: text ++ [NL]) (FENCE ++ rest) = true.
Proof.
  intros Htag Hc. rewrite no_fence_start_app.
  assert (no_fence_start (NL :: text ++ [NL]) (FENCE ++ rest) = true) as Hb.
  { cbn [no_fence_start]. simpl negb. simpl andb.
    rewrite no_fence_start_app. cbn [app].
    rewrite no_fence_start_text by exact Hc. reflexivity. }
  rewrite Hb, andb_true_r. destruct Htag as [->| ->]; reflexivity.
Qed.

(** The tag, when there is one, is cut off, and the line breaks around the
    text go with the final [strip]. *)
Lemma strip_tagged_body (tag text : str) :
  tag = [] \/ tag = lit "json" ->
  strip (if startswith (lit "json") (tag ++ NL :: text ++ [NL])
         then skipn 4 (tag ++ NL :: text ++ [NL])
         else tag ++ NL :: text ++ [NL])
  = strip text.
Proof.
  intros [->| ->].
  - simpl app. cbn [startswith]. simpl. now rewrite strip_padded_line.
  - change (startswith (lit "json") (lit "json" ++ NL :: text ++ [NL])) with true.
    cbv iota. change (skipn 4 (lit "json" ++ NL :: text ++ [NL]))
      with (NL :: text ++ [NL]).
    now rewrite strip_padded_line.
Qed.

Lemma strip_line_start (text : str) : strip (rstrip (NL :: text)) = strip text.
Proof. now rewrite strip_rstrip. Qed.

End FenceMore.

(** X14.  Taking the text for [json.loads] out of a reply never fails
    (indexing the pieces of the split cannot be out of range, a text that
    starts with the fence splits into two pieces at least), and the text
    handed over has no white space at either end. *)
Theorem extract_json_total (reply : str) :
  exists content, extract_json reply = inr content /\ strip content = content.
Proof.
  unfold extract_json. cbv zeta.
  destruct (startswith FENCE (strip reply)) eqn:E.
  - destruct (split_fence_second _ E) as [piece ->].
    eexists. split; [reflexivity|]. apply strip_idem.
  - eexists. split; [reflexivity|]. apply strip_idem.
Qed.

(** X15.  White space before the opening fence and anything after the
    closing fence are dropped: for a text that holds no run of three
    backticks, fenced with the [json] tag or without, the text handed to
    [json.loads] is the stripped text, whatever surrounds the block. *)
Theorem extract_json_ignores_surroundings (ws tag text rest : str) :
  forallb isspace ws = true ->
  tag = [] \/ tag = lit "json" ->
  contains FENCE text = false ->
  extract_json (ws ++ fenced tag text ++ rest) = inr (strip text).
Proof.
  intros Hws Htag Hc. unfold extract_json. cbv zeta.
  assert (strip (ws ++ fenced tag text ++ rest)
          = FENCE ++ (tag ++ NL :: text ++ [NL]) ++ FENCE ++ rstrip rest) as ->.
  { unfold strip. rewrite lstrip_spaces_app by exact Hws.
    unfold fenced.
    change (lstrip ((FENCE ++ tag ++ NL :: text ++ NL :: FENCE) ++ rest))
      with ((FENCE ++ tag ++ NL :: text ++ NL :: FENCE) ++ rest).
    replace ((FENCE ++ tag ++ NL :: text ++ NL :: FENCE) ++ rest)
      with ((FENCE ++ tag ++ NL :: text ++ [NL; 96; 96]%N) ++ 96%N :: rest)
      by (repeat (rewrite <- app_assoc; simpl); reflexivity).
    rewrite rstrip_after_nonspace by reflexivity.
    repeat (rewrite <- app_assoc; simpl). reflexivity. }
  rewrite startswith_app.
  rewrite split_fenced_body by now apply no_fence_start_body.
  now rewrite strip_tagged_body.
Qed.

Lemma extract_json_ignores_surroundings_witness :
  extract_json ([NL; 32%N] ++ fenced (lit "json") (lit "{}") ++ lit " Hope this helps!")
  = inr (strip (lit "{}")).
Proof.
  apply extract_json_ignores_surroundings; [reflexivity|now right|reflexivity].
Defined.

(** X16.  A fence that is never closed is tolerated: for a text that holds
    no run of three backticks, after an opening fence with the [json] tag
    or without, the text handed to [json.loads] is the stripped text. *)
Theorem extract_json_unclosed_fence (ws tag text : str) :
  forallb isspace ws = true ->
  tag = [] \/ tag = lit "json" ->
  contains FENCE text = false ->
  extract_json (ws ++ FENCE ++ tag ++ NL :: text) = inr (strip text).
Proof.
  intros Hws Htag Hc. unfold extract_json. cbv zeta.
  assert (strip (ws ++ FENCE ++ tag ++ NL :: text)
          = FENCE ++ rstrip (tag ++ NL :: text)) as ->.
  { unfold strip. rewrite lstrip_spaces_app by exact Hws.
    change (lstrip (FENCE ++ tag ++ NL :: text)) with (FENCE ++ tag ++ NL :: text).
    change (FENCE ++ tag ++ NL :: text)
      with ([96; 96]%N ++ 96%N :: (tag ++ NL :: text)).
    now rewrite rstrip_after_nonspace by reflexivity. }
  rewrite startswith_app.
  assert (contains FENCE (tag ++ NL :: text) = false) as Hall.
  { destruct Htag as [->| ->]; cbn [app contains lit]; simpl; exact Hc. }
  assert (nth_error (split FENCE (FENCE ++ rstrip (tag ++ NL :: text))) 1
          = Some (rstrip (tag ++ NL :: text))) as ->.
  { unfold split.
    change (split_go FENCE 0 [] (FENCE ++ rstrip (tag ++ NL :: text)))
      with ([] :: split_go FENCE 0 [] (rstrip (tag ++ NL :: text))).
    rewrite split_go_plain; [reflexivity|].
    apply no_fence_start_plain.
    destruct (rstrip_prefix (tag ++ NL :: text)) as [w Hw].
    rewrite Hw in Hall. now apply contains_prefix in Hall. }
  destruct Htag as [->| ->].
  - simpl app.
    assert (startswith (lit "json") (rstrip (NL :: text)) = false) as ->.
    { rewrite rstrip_cons. now destruct (rstrip text). }
    now rewrite strip_line_start.
  - change (lit "json" ++ NL :: text) with ([106; 115; 111]%N ++ 110%N :: NL :: text).
    rewrite rstrip_after_nonspace by reflexivity.
    change (startswith (lit "json") ([106; 115; 111]%N ++ 110%N :: rstrip (NL :: text)))
      with true.
    cbv iota.
    change (skipn 4 ([106; 115; 111]%N ++ 110%N :: rstrip (NL :: text)))
      with (rstrip (NL :: text)).
    now rewrite strip_line_start.
Qed.

Lemma extract_json_unclosed_fence_witness :
  extract_json ([] ++ FENCE ++ lit "json" ++ NL :: lit "{}") = inr (strip (lit "{}")).
Proof.
  apply extract_json_unclosed_fence; [reflexivity|now right|reflexivity].
Defined.

(* ===================================================================== *)
(** * More on the script generator *)
(* ===================================================================== *)

(** X17.  When the call to the model itself raises a [JSONDecodeError],
    the handler meant for [json.loads] catches it and reads [content], which
    is not bound yet: the generator raises the [UnboundLocalError] (text of
    CPython 3.11 and later), not the generation failure, and the request
    ends with the 500 response carrying that text; the original error's
    text is lost.  Any other error of the model is reported as the
    generation failure with its text. *)
Theorem generate_shorts_script_model_error
  (S : Services) (transcript_text key tone : str) (log : list call) (e : exn) :
  falsy key = false ->
  llm_invoke S log (lit "gpt-4o-mini") key 0.3%float (prompt_of transcript_text tone)
  = inl e ->
  generate_shorts_script S transcript_text key tone log
  = (inl (if is_json_decode_error e
          then mkExn UnboundLocalError msg_unbound_content
          else mkExn Exception (msg_script_failed ++ exn_str e)),
     log ++ [llm_call transcript_text key tone]).
Proof.
  intros Hk He. rewrite generate_shorts_script_cases by exact Hk. cbv zeta.
  rewrite He. now destruct (is_json_decode_error e).
Qed.

Lemma generate_shorts_script_model_error_witness :
  generate_shorts_script Stub.garbled (lit "hello") (lit "sk-test") default_style []
  = (inl (mkExn UnboundLocalError msg_unbound_content),
     [] ++ [llm_call (lit "hello") (lit "sk-test") default_style]).
Proof.
  exact (generate_shorts_script_model_error Stub.garbled (lit "hello") (lit "sk-test")
           default_style [] Stub.undecodable eq_refl eq_refl).
Defined.
